(** * Dependency resolution, folder traversal and local fixes of ucx

    A shallow embedding of [databricks/labs/ucx/source_code/linters/files.py]
    ([Folder], [LocalFileMigrator], [ImportFileResolver]) together with the
    collaborators it calls through an interface ([PathLookup], [KnownList],
    the parent [DependencyGraph], the linter context), and of the migration
    sequencer exercised by [tests/unit/sequencing/test_sequencing.py]. *)

From Stdlib Require Import Ascii String.
From stdpp Require Import base strings list gmap.


(** ** Python strings *)

Module Str.

(** [sep.join(items)] *)
Definition join (sep : string) (items : list string) : string :=
  String.concat sep items.

(** [s.replace(a, b)] for one-character [a] and [b]. *)
Fixpoint replace (a b : ascii) (s : string) : string :=
  match s with
  | EmptyString => EmptyString
  | String c rest => String (if Ascii.eqb c a then b else c) (replace a b rest)
  end.

(** [s.split(sep)] for a one-character [sep]; [cur] holds the characters of
    the piece being read, last one first. *)
Fixpoint split_go (sep : ascii) (cur : string) (s : string) : list string :=
  match s with
  | EmptyString => [String.rev cur]
  | String c rest =>
      if Ascii.eqb c sep then String.rev cur :: split_go sep EmptyString rest
      else split_go sep (String c cur) rest
  end.
Definition split (sep : ascii) (s : string) : list string :=
  split_go sep EmptyString s.

(** [s.rfind(c)]: the index of the last [c] in [s], if any. *)
Fixpoint rfind (c : ascii) (s : string) : option nat :=
  match s with
  | EmptyString => None
  | String d rest =>
      match rfind c rest with
      | Some i => Some (S i)
      | None => if Ascii.eqb d c then Some 0 else None
      end
  end.

(** [s[i:]] *)
Fixpoint drop (i : nat) (s : string) : string :=
  match i, s with
  | S j, String _ rest => drop j rest
  | _, _ => s
  end.

End Str.

(** ** [pathlib.PurePosixPath]

    A path is the pair of its root and its segments, as [pathlib] keeps it:
    empty segments and [.] segments are dropped on construction, [..] segments
    are kept. *)

Module Path.

Record t := mk { root : string; parts : list string }.

Global Instance eq_dec : EqDecision t.
Proof. solve_decision. Defined.

Global Instance countable : Countable t :=
  inj_countable' (λ p, (root p, parts p)) (λ x, mk x.1 x.2)
    (λ p, match p with mk _ _ => eq_refl end).

(** A root of exactly two slashes is kept apart by POSIX. *)
Definition parse_root (s : string) : string :=
  match s with
  | String "/" (String "/" (String "/" _)) => "/"
  | String "/" (String "/" _) => "//"
  | String "/" _ => "/"
  | _ => ""
  end.

Definition is_segment (s : string) : bool :=
  negb (String.eqb s "" || String.eqb s ".").

(** [Path(text)] *)
Definition of_string (text : string) : t :=
  mk (parse_root text) (List.filter is_segment (Str.split "/" text)).

Definition as_posix (p : t) : string :=
  match root p, parts p with
  | EmptyString, [] => "."
  | r, ps => r +:+ Str.join "/" ps
  end.

(** [p.name]: the final segment, empty when there is none. *)
Definition name (p : t) : string := List.last (parts p) "".

(** [p.suffix]: the extension of the final segment, dot included. *)
Definition suffix (p : t) : string :=
  let n := name p in
  match Str.rfind "." n with
  | Some i =>
      if (0 <? i)%nat && (i <? String.length n - 1)%nat then Str.drop i n else ""
  | None => ""
  end.

(** [p / segment] for a single plain segment. *)
Definition child (p : t) (segment : string) : t :=
  mk (root p) (parts p ++ [segment]).

End Path.

Abbreviation Path := Path.t.

(** ** The data model of [source_code.graph] used by [files.py] *)

(** The loader classes a [Dependency] can refer to. *)
Inductive DependencyLoader := NotebookLoader | FileLoader | FolderLoader.

Global Instance DependencyLoader_eq_dec : EqDecision DependencyLoader.
Proof. solve_decision. Defined.

Module Dependency.
Record t := mk { loader : DependencyLoader; path : Path; inherits_context : bool }.
Global Instance eq_dec : EqDecision t.
Proof. solve_decision. Defined.
End Dependency.
Abbreviation Dependency := Dependency.t.

Module DependencyProblem.
Record t := mk { code : string; message : string }.
Global Instance eq_dec : EqDecision t.
Proof. solve_decision. Defined.
End DependencyProblem.
Abbreviation DependencyProblem := DependencyProblem.t.

Module MaybeDependency.
Record t := mk { dependency : option Dependency; problems : list DependencyProblem }.
Global Instance eq_dec : EqDecision t.
Proof. solve_decision. Defined.
End MaybeDependency.
Abbreviation MaybeDependency := MaybeDependency.t.

(** What [KnownList.module_compatibility] answers. *)
Module Compatibility.
Record t := mk { known : bool; problems : list DependencyProblem }.
End Compatibility.
Abbreviation Compatibility := Compatibility.t.

(** The collaborators, by the methods [files.py] calls on them. *)
Record KnownList := { module_compatibility : string → Compatibility }.

Record PathLookup := { cwd : Path; resolve : Path → option Path }.

(** ** Calls made on the collaborators

    A computation returns its value together with the calls it made, in the
    order it made them. *)

Inductive Call :=
  | CallModuleCompatibility (name : string)
  | CallResolve (path : Path).

Global Instance Call_eq_dec : EqDecision Call.
Proof. solve_decision. Defined.

Definition Traced (A : Type) : Type := A * list Call.

Definition tret {A} (a : A) : Traced A := (a, []).
Definition tbind {A B} (m : Traced A) (k : A → Traced B) : Traced B :=
  let r := k m.1 in (r.1, m.2 ++ r.2).

Notation "x ←' m ; k" := (tbind m (λ x, k))
  (at level 20, m at level 100, k at level 200, only parsing).

Definition value {A} (m : Traced A) : A := m.1.
Definition calls {A} (m : Traced A) : list Call := m.2.

(** The paths handed to [path_lookup.resolve], in order. *)
Definition probed {A} (m : Traced A) : list Path :=
  omap (λ c, match c with CallResolve p => Some p | _ => None end) (calls m).

(** ** [ImportFileResolver] *)

Module ImportFileResolver.

Record t := mk { _allow_list : KnownList; _file_loader : DependencyLoader }.

Section Methods.

(** [Dependency.__init__] lives in [source_code.graph]; the value its
    [inherits_context] argument takes when left out is a parameter. *)
Variable default_inherits_context : bool.

Variable self : t.

(** [path_lookup.resolve(path)], recorded. *)
Definition lookup (path_lookup : PathLookup) (path : Path) : Traced (option Path) :=
  (resolve path_lookup path, [CallResolve path]).

Definition resolve_file (path_lookup : PathLookup) (path : Path) : Traced MaybeDependency :=
  absolute_path ←' lookup path_lookup path;
  match absolute_path with
  | Some absolute_path =>
      tret (MaybeDependency.mk
              (Some (Dependency.mk (_file_loader self) absolute_path default_inherits_context))
              [])
  | None =>
      let problem :=
        DependencyProblem.mk "file-not-found" ("File not found: " +:+ Path.as_posix path) in
      tret (MaybeDependency.mk None [problem])
  end.

Definition _fail (code message : string) : MaybeDependency :=
  MaybeDependency.mk None [DependencyProblem.mk code message].

(** A stage of [resolve_import] answers [None] (Python's [None]) or a
    [MaybeDependency]. *)
Definition _resolve_allow_list (name : string) : Traced (option MaybeDependency) :=
  compatibility ←' (module_compatibility (_allow_list self) name,
                    [CallModuleCompatibility name]);
  if negb (Compatibility.known compatibility) then tret None
  else
    match Compatibility.problems compatibility with
    | [] => tret (Some (MaybeDependency.mk None []))
    | _ => tret (Some (MaybeDependency.mk None (Compatibility.problems compatibility)))
    end.

(** The loop over [enumerate(name)]: [rest] is [name[i:]]. *)
Fixpoint import_parts (cwd_posix : string) (i : nat) (rest : string) : list string :=
  match rest with
  | EmptyString => []
  | String rune tail =>
      if (i =? 0)%nat && Ascii.eqb rune "." then
        cwd_posix :: import_parts cwd_posix (S i) tail
      else if negb (Ascii.eqb rune ".") then
        [Str.replace "." "/" rest]
      else
        ".." :: import_parts cwd_posix (S i) tail
  end.

(** The two candidate texts, in the order of the tuple the code walks. *)
Definition candidates (parts : list string) : list string :=
  [Str.join "/" parts +:+ ".py"; Str.join "/" parts +:+ "/__init__.py"].

(** The loop over the candidates. *)
Fixpoint probe (path_lookup : PathLookup) (cands : list string)
  : Traced (option MaybeDependency) :=
  match cands with
  | [] => tret None
  | candidate :: cands =>
      let relative_path := Path.of_string candidate in
      absolute_path ←' lookup path_lookup relative_path;
      match absolute_path with
      | None => probe path_lookup cands
      | Some absolute_path =>
          let dependency := Dependency.mk (_file_loader self) absolute_path false in
          tret (Some (MaybeDependency.mk (Some dependency) []))
      end
  end.

Definition _resolve_import (path_lookup : PathLookup) (name : string)
  : Traced (option MaybeDependency) :=
  if String.eqb name "" then
    tret (Some (MaybeDependency.mk None
                  [DependencyProblem.mk "ucx-bug" "Import name is empty"]))
  else
    let parts := import_parts (Path.as_posix (cwd path_lookup)) 0 name in
    probe path_lookup (candidates parts).

Definition resolve_import (path_lookup : PathLookup) (name : string)
  : Traced MaybeDependency :=
  maybe ←' _resolve_allow_list name;
  match maybe with
  | Some maybe => tret maybe
  | None =>
      maybe ←' _resolve_import path_lookup name;
      match maybe with
      | Some maybe => tret maybe
      | None => tret (_fail "import-not-found" ("Could not locate import: " +:+ name))
      end
  end.

End Methods.

(** The translation as the specification words it, to be compared with
    [import_parts]: the first leading dot is the lookup directory, every
    further leading dot a parent step, and the rest of the name has its
    dots turned into separators. *)
Fixpoint leading_dots (name : string) : nat :=
  match name with
  | String "." rest => S (leading_dots rest)
  | _ => 0
  end.

Definition translated_parts (cwd_posix name : string) : list string :=
  let dots := leading_dots name in
  let remainder := Str.drop dots name in
  match dots with
  | 0 => []
  | S further => cwd_posix :: replicate further ".."
  end ++
  match remainder with
  | EmptyString => []
  | _ => [Str.replace "." "/" remainder]
  end.

(** The two paths [_resolve_import] hands to the lookup for [name]. *)
Definition probes (path_lookup : PathLookup) (name : string) : list Path :=
  Path.of_string <$>
    candidates (import_parts (Path.as_posix (cwd path_lookup)) 0 name).

End ImportFileResolver.

(** ** [Folder] *)

(** What [Folder] asks of the file system: [os.listdir], [Path.is_file] and
    [base.is_a_notebook]. Listing answers [None] where Python raises. *)
Record FileSystem := {
  listdir : Path → option (list string);
  is_file : Path → bool;
  is_a_notebook : Path → bool
}.

(** [path.iterdir()]: one path per entry, the entry's name added to [path]. *)
Definition iterdir (fs : FileSystem) (path : Path) : option (list Path) :=
  map (Path.child path) <$> listdir fs path.

Module MaybeGraph.
Record t (G : Type) := mk { graph : option G; problems : list DependencyProblem }.
Global Arguments mk {G} _ _.
Global Arguments graph {G} _.
Global Arguments problems {G} _.
End MaybeGraph.
Abbreviation MaybeGraph := MaybeGraph.t.

(** The parent graph is used through [register_dependency] alone, which
    updates the graph it is called on. *)
Class DependencyGraph (G : Type) := {
  register_dependency : G → Dependency → MaybeGraph G * G
}.

(** Registering a list of dependencies one after the other, the problems of
    each registration collected in order. *)
Fixpoint register_all `{DependencyGraph G} (parent : G) (dependencies : list Dependency)
  : list DependencyProblem * G :=
  match dependencies with
  | [] => ([], parent)
  | dependency :: rest =>
      let registered := register_dependency parent dependency in
      let others := register_all registered.2 rest in
      (MaybeGraph.problems registered.1 ++ others.1, others.2)
  end.

(** A graph that only remembers the dependencies registered on it, and
    reports for each the problems [report] gives. *)
Record Journal := { report : Dependency → list DependencyProblem; registered : list Dependency }.

Global Instance Journal_graph : DependencyGraph Journal := {
  register_dependency g d :=
    (MaybeGraph.mk None (report g d), {| report := report g; registered := registered g ++ [d] |})
}.

Module Folder.

Record t := mk {
  _path : Path;
  _notebook_loader : DependencyLoader;
  _file_loader : DependencyLoader;
  _folder_loader : DependencyLoader
}.

Definition path (self : t) : Path := _path self.

Definition denylist : gset string :=
  {[ "__pycache__"; ".git"; ".github"; ".venv"; ".mypy_cache"; "site-packages" ]}.

Section Methods.
Context `{DependencyGraph G}.
Variable fs : FileSystem.
Variable self : t.

(** The body of the loop, up to the registration. *)
Definition child_dependency (child_path : Path) : Dependency :=
  let is_file := is_file fs child_path in
  let is_notebook := is_a_notebook fs child_path in
  let loader :=
    if is_notebook then _notebook_loader self
    else if is_file then _file_loader self
    else _folder_loader self in
  Dependency.mk loader child_path is_notebook.

(** The loop of the generator, drained. *)
Fixpoint register_children (parent : G) (children : list Path)
  : list DependencyProblem * G :=
  match children with
  | [] => ([], parent)
  | child_path :: children =>
      let dependency := child_dependency child_path in
      let maybe := register_dependency parent dependency in
      let rest := register_children maybe.2 children in
      (MaybeGraph.problems maybe.1 ++ rest.1, rest.2)
  end.

(** [None] stands for the exception of a folder that cannot be listed. *)
Definition _build_dependency_graph (parent : G) : option (list DependencyProblem * G) :=
  register_children parent <$> iterdir fs (_path self).

Definition build_dependency_graph (parent : G) : option (list DependencyProblem * G) :=
  if decide (Path.name (_path self) ∈ denylist) then Some ([], parent)
  else _build_dependency_graph parent.

End Methods.

End Folder.

(** ** [FolderLoader] *)

Module FolderLoader.

Record t := mk { _notebook_loader : DependencyLoader; _file_loader : DependencyLoader }.

(** The loader hands itself to the [Folder] it builds; as a loader it is
    known by its class. *)
Definition load_dependency (self : t) (path_lookup : PathLookup) (dependency : Dependency)
  : option Folder.t :=
  match resolve path_lookup (Dependency.path dependency) with
  | None => None
  | Some absolute_path =>
      Some (Folder.mk absolute_path (_notebook_loader self) (_file_loader self) FolderLoader)
  end.

End FolderLoader.

(** ** [LocalFileMigrator] *)

Inductive Language := PYTHON | SQL.

Module Advice.
Record t := mk { code : string; message : string }.
End Advice.
Abbreviation Advice := Advice.t.

(** A fixer, by its [apply]. *)
Definition Fixer : Type := string → string.

(** [LinterContext], by the two methods the migrator calls; a linter is given
    by its [lint]. A fixer object is true in a condition, so [if not fixer]
    is taken exactly when [fixer] answers [None]. *)
Record LinterContext := {
  linter : Language → string → list Advice;
  fixer : Language → string → option Fixer
}.

(** What a path holds: text, or bytes that do not decode. A path with no
    entry cannot be opened. *)
Inductive Content := Text (code : string) | Undecodable.

Inductive Mode := ModeR | ModeW.

Global Instance Mode_eq_dec : EqDecision Mode.
Proof. solve_decision. Defined.

(** The files, the paths that cannot be opened for writing, and the journal
    of every [open] that succeeded, oldest first. A file is known by the
    path the program opens it with: [files] tells what is read and written
    through a path as it is spelled, and says nothing of another spelling of
    the same file. *)
Record Disk := {
  files : gmap Path Content;
  locked : gset Path;
  opened : list (Path * Mode)
}.

Inductive Outcome (A : Type) := Returned (a : A) | Raised (exception : string).
Global Arguments Returned {A} _.
Global Arguments Raised {A} _.

Definition IO (A : Type) : Type := Disk → Outcome A * Disk.

Definition io_ret {A} (a : A) : IO A := λ d, (Returned a, d).
Definition io_bind {A B} (m : IO A) (k : A → IO B) : IO B :=
  λ d, match m d with
       | (Returned a, d) => k a d
       | (Raised e, d) => (Raised e, d)
       end.

Notation "x ←io m ; k" := (io_bind m (λ x, k))
  (at level 20, m at level 100, k at level 200, only parsing).

(** [path.open("r")] followed by [f.read()], the decoding failure handed to
    the caller's [except]. *)
Definition open_read (path : Path) : IO Content :=
  λ d, match files d !! path with
       | None => (Raised "FileNotFoundError", d)
       | Some content =>
           (Returned content,
            {| files := files d; locked := locked d;
               opened := opened d ++ [(path, ModeR)] |})
       end.

(** [path.open("w")] followed by [f.write(code)]. The [open] of a path that
    cannot be opened for writing raises and leaves the file as it was; a
    [write] to a file that was opened is taken to succeed. *)
Definition open_write (path : Path) (code : string) : IO unit :=
  λ d, if decide (path ∈ locked d) then (Raised "PermissionError", d)
       else
         (Returned (),
          {| files := <[path := Text code]> (files d); locked := locked d;
             opened := opened d ++ [(path, ModeW)] |}).

(** The paths opened for writing since [before]. *)
Definition written (before after : Disk) : list Path :=
  omap (λ entry : Path * Mode, match entry.2 with ModeW => Some entry.1 | ModeR => None end)
       (drop (length (opened before)) (opened after)).

Module LocalFileMigrator.

Record t := mk {
  _extensions : gmap string Language;
  _context_factory : unit → LinterContext
}.

Definition __init__ (context_factory : unit → LinterContext) : t :=
  mk {[ ".py" := PYTHON; ".sql" := SQL ]} context_factory.

(** The loop over the advices: the code so far and whether a fix was
    applied. *)
Fixpoint apply_fixers (context : LinterContext) (language : Language)
    (advices : list Advice) (code : string) (applied : bool) : string * bool :=
  match advices with
  | [] => (code, applied)
  | advice :: advices =>
      match fixer context language (Advice.code advice) with
      | None => apply_fixers context language advices code applied
      | Some fixer => apply_fixers context language advices (fixer code) true
      end
  end.

(** Members of the [Language] enumeration are all true in a condition, so
    the [if not language] guard never returns. *)
Definition _apply_file_fix (self : t) (path : Path) : IO bool :=
  match _extensions self !! Path.suffix path with
  | None => io_ret false
  | Some language =>
      let context := _context_factory self () in
      let linter := linter context language in
      content ←io open_read path;
      match content with
      | Undecodable => io_ret false
      | Text code =>
          let fixed := apply_fixers context language (linter code) code false in
          if negb fixed.2 then io_ret false
          else
            _ ←io open_write path fixed.1;
            io_ret true
      end
  end.

(** The loop over the children: the answer of each call is dropped, an
    exception ends the loop. *)
Fixpoint for_each (children : list Path) (body : Path → IO bool) : IO unit :=
  match children with
  | [] => io_ret ()
  | child_path :: children =>
      _ ←io body child_path;
      for_each children body
  end.

Section Apply.

(** [Path.is_dir] and the listing of folders, which [apply] does not
    change. *)
Variable is_dir : Path → bool.
Variable fs : FileSystem.

(** [depth] bounds how deep the calls may nest, as the interpreter's
    recursion limit does; a folder that cannot be listed raises. *)
Fixpoint apply (depth : nat) (self : t) (path : Path) : IO bool :=
  match depth with
  | 0 => λ disk, (Raised "RecursionError", disk)
  | S depth =>
      if is_dir path then
        match iterdir fs path with
        | None => λ disk, (Raised "OSError", disk)
        | Some children =>
            _ ←io for_each children (apply depth self);
            io_ret true
        end
      else _apply_file_fix self path
  end.

End Apply.

End LocalFileMigrator.

(** ** [MigrationSequencer]

    [sequencing/sequencing.py] is exercised by
    [tests/unit/sequencing/test_sequencing.py]; the module itself is described
    by the specification (sections 3, 4.3 and 4.4), which this part follows
    for the two calls the cyclic test makes, [register_dependency] and
    [visit_graph], and for [generate_steps]. [register_workflow_task], with
    its jobs, tasks and clusters, is not called by that test and is left
    out: every property below is stated for any graph in progress,
    whichever calls registered it. *)

Module MigrationSequencer.

(** Modelled from the spec: the identity of a workspace object, its type and
    its id (section 3, [object_type] and [object_id]). *)
Definition Key : Type := string * string.

(** Modelled from the spec: a candidate node of the graph in progress
    (section 3), with the id its step will carry. *)
Record MigrationNode := {
  node_id : nat;
  node_type : string;
  node_object_id : string
}.

(** Modelled from the spec: the identity of a node. *)
Definition key_of (node : MigrationNode) : Key := (node_type node, node_object_id node).

(** Modelled from the spec: [MigrationStep] (section 3); an owner that the
    lookup does not know is left empty (section 4.4). *)
Record MigrationStep := {
  step_id : nat;
  object_type : string;
  object_id : string;
  object_name : string;
  object_owner : option string;
  step_number : nat;
  required_step_ids : list nat
}.

(** Modelled from the spec: the platform facts and the owner lookup the
    sequencer consumes (sections 4.4 and 6): a name per object and zero or
    one owner. *)
Record Workspace := {
  name_of : Key → string;
  owner_of : Key → option string
}.

(** Modelled from the spec: the sequencer's graph in progress (section 3),
    the nodes in the order they were first registered and, per node, the
    objects it requires, in the order the edges were added. *)
Record t := mk {
  _last_node_id : nat;
  _nodes : list MigrationNode;
  _requires : gmap Key (list Key)
}.

(** Modelled from the spec: the sequencer as constructed, nothing
    registered. *)
Definition empty : t := mk 0 [] ∅.

(** Modelled from the spec: the registered objects, in registration order. *)
Definition keys (s : t) : list Key := key_of <$> _nodes s.

(** Modelled from the spec: the direct requirements of an object. *)
Definition requires (s : t) (k : Key) : list Key := default [] (_requires s !! k).

(** Modelled from the spec: the node registered for an object, if any. *)
Definition find_node (s : t) (k : Key) : option MigrationNode :=
  List.find (λ node, bool_decide (key_of node = k)) (_nodes s).

(** Modelled from the spec: a candidate node is inserted if not already
    present (section 4.4); step ids are unique and stable (section 3). *)
Definition register_node (s : t) (k : Key) : t :=
  match find_node s k with
  | Some _ => s
  | None =>
      let id := S (_last_node_id s) in
      mk id (_nodes s ++ [{| node_id := id; node_type := k.1; node_object_id := k.2 |}])
         (_requires s)
  end.

(** Modelled from the spec: an edge [x] requires [y], that is, [y] is
    migrated before [x] (section 4.4). *)
Definition add_requirement (s : t) (x y : Key) : t :=
  if bool_decide (y ∈ requires s x) then s
  else mk (_last_node_id s) (_nodes s) (<[x := requires s x ++ [y]]> (_requires s)).

(** Modelled from the spec: [register_dependency(parent_node, object_type,
    object_id)] as the test calls it; the parent, when given, requires the
    dependency. *)
Definition register_dependency (s : t) (parent : option Key)
    (object_type object_id : string) : t :=
  let s := register_node s (object_type, object_id) in
  match parent with
  | None => s
  | Some parent => add_requirement s parent (object_type, object_id)
  end.

(** Modelled from the spec: a dependency graph as the walker sees it, nodes
    kept in a registry by identity (section 9): per artifact, the artifacts
    registered on it, in registration order. *)
Definition Arena : Type := gmap Key (list Key).

(** Modelled from the spec: the cycle-safe walker (section 4.3), depth first
    in registration order, each artifact visited the first time it is
    reached; a visit registers the artifact's own dependencies. *)
Fixpoint visit (fuel : nat) (graph : Arena) (node : Key) (st : t * list Key)
  : t * list Key :=
  match fuel with
  | 0 => st
  | S fuel =>
      if bool_decide (node ∈ st.2) then st
      else
        let children := default [] (graph !! node) in
        let s := foldl (λ s child, register_dependency s (Some node) child.1 child.2)
                       st.1 children in
        foldl (λ st child, visit fuel graph child st) (s, node :: st.2) children
  end.

(** Modelled from the spec: [visit_graph(graph)] as the test calls it, the
    walk started at the root with nothing visited. *)
Definition visit_graph (s : t) (graph : Arena) (root : Key) : t :=
  (visit (S (size graph)) graph root (s, [])).1.

Section Sequencing.

Variable ws : Workspace.
Variable s : t.

(** Modelled from the spec: the requirements of [k] that are not met yet,
    those still among [remaining] (section 4.4). *)
Definition unmet (remaining : list Key) (k : Key) : list Key :=
  filter (λ r, r ∈ remaining) (requires s k).

(** Modelled from the spec: a node with no remaining unmet requirement. *)
Definition ready (remaining : list Key) (k : Key) : bool :=
  bool_decide (unmet remaining k = []).

(** Modelled from the spec: the nodes [k] requires through one to [n] unmet
    edges. *)
Fixpoint reachable (n : nat) (remaining : list Key) (k : Key) : list Key :=
  match n with
  | 0 => []
  | S n =>
      let next := unmet remaining k in
      next ++ flat_map (reachable n remaining) next
  end.

(** Modelled from the spec: [k] requires [k'], directly or not. *)
Definition requires_in (remaining : list Key) (k k' : Key) : bool :=
  bool_decide (k' ∈ reachable (length remaining) remaining k).

(** Modelled from the spec: [k] lies on a cycle of requirements. *)
Definition on_cycle (remaining : list Key) (k : Key) : bool :=
  requires_in remaining k k.

(** Modelled from the spec: [k'] is in the strongly connected set of [k],
    the two require each other (section 4.4). *)
Definition same_cycle (remaining : list Key) (k k' : Key) : bool :=
  bool_decide (k' = k) || (requires_in remaining k k' && requires_in remaining k' k).

(** Some unmet requirement of [k], or [k] itself when it has none. *)
Definition some_unmet (remaining : list Key) (k : Key) : Key :=
  List.hd k (unmet remaining k).

(** Modelled from the spec: the tie-break of section 4.4. The first
    registered node with no unmet requirement goes next; when there is
    none, the nodes of the cycle of the first registered node that lies on
    one go next, in registration order. *)
Definition next_batch (remaining : list Key) : list Key :=
  match List.find (ready remaining) remaining with
  | Some k => [k]
  | None =>
      match List.find (on_cycle remaining) remaining with
      | Some k => List.filter (same_cycle remaining k) remaining
      | None => []
      end
  end.

(** Modelled from the spec: the stable topological sort (section 4.4), one
    batch after the other until no node remains. *)
Fixpoint order (fuel : nat) (remaining : list Key) : list Key :=
  match fuel, remaining with
  | S fuel, _ :: _ =>
      let batch := next_batch remaining in
      batch ++ order fuel (list_difference remaining batch)
  | _, _ => []
  end.

(** Modelled from the spec: the step ids of a list of objects. *)
Definition node_ids (ks : list Key) : list nat :=
  omap (λ k, node_id <$> find_node s k) ks.

(** Modelled from the spec: [step_number] is the position in the order,
    counted from one; [required_step_ids] are the ids of the direct
    requirements (section 4.4). *)
Definition as_step (position : nat) (k : Key) : option MigrationStep :=
  node ← find_node s k;
  Some {| step_id := node_id node;
          object_type := k.1;
          object_id := k.2;
          object_name := name_of ws k;
          object_owner := owner_of ws k;
          step_number := S position;
          required_step_ids := node_ids (requires s k) |}.

(** Modelled from the spec: the steps of an order. *)
Definition steps_of (ordered : list Key) : list MigrationStep :=
  omap id (imap as_step ordered).

(** Modelled from the spec: [generate_steps()] (section 4.4). *)
Definition generate_steps : list MigrationStep :=
  steps_of (order (length (keys s)) (keys s)).

End Sequencing.

(** The artifacts of [test_sequencer_supports_cyclic_dependencies]. *)
Definition root_py : Key := ("FILE", "root.py").
Definition a_py : Key := ("FILE", "a.py").
Definition b_py : Key := ("FILE", "b.py").

(** The graph the test builds: root imports a and b, a imports b, b imports
    a. *)
Definition cyclic_graph (root a b : Key) : Arena :=
  {[ root := [a; b]; a := [b]; b := [a] ]}.

(** The two calls the test makes before [generate_steps], on a sequencer as
    constructed: the root is registered with no parent, then the graph is
    walked from the root. *)
Definition cyclic_run (root a b : Key) : t :=
  visit_graph (register_dependency empty None root.1 root.2) (cyclic_graph root a b) root.

End MigrationSequencer.

(** * Properties *)

(** ** Sample collaborators *)

(** A lookup context in [/root/pkg] under which nothing resolves. *)
Definition empty_lookup : PathLookup :=
  {| cwd := Path.of_string "/root/pkg"; resolve := λ _, None |}.

(** A lookup context in [/root/pkg] under which every path resolves to
    itself. *)
Definition full_lookup : PathLookup :=
  {| cwd := Path.of_string "/root/pkg"; resolve := λ p, Some p |}.

Definition flagged : DependencyProblem :=
  DependencyProblem.mk "direct-filesystem-access"
    "The use of direct filesystem references is deprecated".

(** An allow-list that knows [os], and [dbutils] with a problem. *)
Definition sample_allow_list : KnownList :=
  {| module_compatibility name :=
       if String.eqb name "os" then Compatibility.mk true []
       else if String.eqb name "dbutils" then Compatibility.mk true [flagged]
       else Compatibility.mk false [] |}.

Definition sample_resolver : ImportFileResolver.t :=
  ImportFileResolver.mk sample_allow_list FileLoader.

(** A repository with a notebook, a module and two folders at its top, and a
    [.git] folder that holds [config] and [hooks]. *)
Definition sample_fs : FileSystem :=
  {| listdir p :=
       if bool_decide (p = Path.of_string "/repo") then
         Some ["nb.py"; "mod.py"; "pkg"; ".git"]
       else if bool_decide (p = Path.of_string "/repo/.git") then
         Some ["config"; "hooks"]
       else None;
     is_file p :=
       bool_decide (p ∈ [Path.of_string "/repo/nb.py"; Path.of_string "/repo/mod.py";
                         Path.of_string "/repo/.git/config"]);
     is_a_notebook p := bool_decide (p = Path.of_string "/repo/nb.py") |}.

Definition folder_at (text : string) : Folder.t :=
  Folder.mk (Path.of_string text) NotebookLoader FileLoader FolderLoader.

(** A parent graph with nothing registered that reports one problem per
    module file. *)
Definition sample_journal : Journal :=
  {| report d :=
       if bool_decide (Dependency.loader d = FileLoader) then
         [DependencyProblem.mk "import-not-found" "Could not locate import: missing"]
       else [];
     registered := [] |}.

(** A linter context whose linter reports [advices] whatever the code: the
    code [table-migrate] has a fixer for Python, no other code has one. *)
Definition sample_context (advices : list Advice) : LinterContext :=
  {| linter _ _ := advices;
     fixer language code :=
       match language with
       | PYTHON =>
           if String.eqb code "table-migrate" then Some (λ source, source +:+ "# migrated")
           else None
       | SQL => None
       end |}.

Definition sample_disk : Disk :=
  {| files := {[ Path.of_string "/repo/mod.py" := Text "spark.table('old')";
                 Path.of_string "/repo/blob.py" := Undecodable;
                 Path.of_string "/repo/notes.txt" := Text "notes";
                 Path.of_string "/repo/frozen.py" := Text "spark.table('old')" ]};
     locked := {[ Path.of_string "/repo/frozen.py" ]};
     opened := [] |}.

Definition advice_with_fixer : Advice :=
  Advice.mk "table-migrate" "Table is migrated".
Definition advice_without_fixer : Advice :=
  Advice.mk "dbfs-usage" "Deprecated file system path".

Definition sample_workspace : MigrationSequencer.Workspace :=
  {| MigrationSequencer.name_of k := k.2;
     MigrationSequencer.owner_of _ := Some "John Doe" |}.

(** ** Notions used to state the properties *)

(** [c in s] for a character. *)
Fixpoint contains (c : ascii) (s : string) : bool :=
  match s with
  | EmptyString => false
  | String d rest => Ascii.eqb d c || contains c rest
  end.

(** A segment [pathlib] keeps as it is: not empty, not [.], without [/]. *)
Definition plain_segment (s : string) : bool :=
  negb (String.eqb s "") && negb (String.eqb s ".") && negb (contains "/" s).

(** A component of a dotted module name: not empty, without [.] or [/]. *)
Definition plain_component (s : string) : bool :=
  negb (String.eqb s "") && negb (contains "." s) && negb (contains "/" s).

(** A path as [pathlib] builds it, with at least one segment. *)
Definition plain_path (p : Path) : bool :=
  bool_decide (Path.root p ∈ [""; "/"; "//"]) &&
  negb (bool_decide (Path.parts p = [])) &&
  forallb plain_segment (Path.parts p).

(** [count] dots in a row. *)
Fixpoint dots (count : nat) : string :=
  match count with
  | 0 => ""
  | S count => String "." (dots count)
  end.

(** The segments but the last, and the last with [tail] added to it. *)
Definition with_tail (segments : list string) (tail : string) : list string :=
  removelast segments ++ [List.last segments "" +:+ tail].

(** The object a step is for. *)
Definition step_key (step : MigrationSequencer.MigrationStep) : MigrationSequencer.Key :=
  (MigrationSequencer.object_type step, MigrationSequencer.object_id step).

(** A chain of requirements that are not met yet: [k] requires the first of
    [path], which requires the second, and so on. *)
Fixpoint chain (s : MigrationSequencer.t) (remaining : list MigrationSequencer.Key)
    (k : MigrationSequencer.Key) (path : list MigrationSequencer.Key) : Prop :=
  match path with
  | [] => True
  | k' :: path => k' ∈ MigrationSequencer.unmet s remaining k ∧ chain s remaining k' path
  end.

(** The disk once [path] was opened for reading. *)
Definition was_read (path : Path) (disk : Disk) : Disk :=
  {| files := files disk; locked := locked disk;
     opened := opened disk ++ [(path, ModeR)] |}.


(** Every opening for writing in a journal comes right after an opening of
    the same path for reading. *)
Definition read_before_write (entries : list (Path * Mode)) : Prop :=
  ∀ i p, entries !! i = Some (p, ModeW) →
         ∃ j, i = S j ∧ entries !! j = Some (p, ModeR).

(** What [apply] does to a disk: it adds to the journal, openings of files
    of suffix [.py] or [.sql] only and none for writing but right after one
    of the same path for reading; it leaves the files as they were when it
    opened none for writing; the paths that cannot be opened for writing are
    the same. *)
Definition journalled (before after : Disk) : Prop :=
  ∃ entries,
    opened after = opened before ++ entries ∧
    Forall (λ entry : Path * Mode, Path.suffix entry.1 ∈ [".py"; ".sql"]) entries ∧
    read_before_write entries ∧
    (written before after = [] → files after = files before) ∧
    locked after = locked before.


(** A lookup context that finds the folder [repo] at [/repo]. *)
Definition repo_lookup : PathLookup :=
  {| cwd := Path.of_string "/";
     resolve p :=
       if bool_decide (p = Path.of_string "repo") then Some (Path.of_string "/repo")
       else None |}.

(** [/repo] as the only folder, holding the three files of [sample_disk]. *)
Definition only_repo (p : Path) : bool := bool_decide (p = Path.of_string "/repo").


(** The same folder listing an entry [gone.py] that the disk does not
    hold. *)
Definition dangling_fs : FileSystem :=
  {| listdir p :=
       if only_repo p then Some ["notes.txt"; "gone.py"; "mod.py"] else None;
     is_file p := negb (only_repo p);
     is_a_notebook _ := false |}.

(** ** Facts on [ImportFileResolver] *)

Section ImportFileResolverFacts.

Import ImportFileResolver.

Variable self : ImportFileResolver.t.

Lemma string_eqb_empty (name : string) :
  String.eqb name "" = bool_decide (name = "").
Proof. by destruct name. Qed.

(** Past the first character the loop only counts dots. *)
Lemma import_parts_later (cwd_posix : string) (i : nat) (rest : string) :
  import_parts cwd_posix (S i) rest =
    replicate (leading_dots rest) ".." ++
    match Str.drop (leading_dots rest) rest with
    | EmptyString => []
    | remainder => [Str.replace "." "/" remainder]
    end.
Proof.
  revert i; induction rest as [|rune tail IH]; intros i; [done|].
  cbn [import_parts Nat.eqb andb]. destruct (Ascii.eqb_spec rune ".") as [->|Hne].
  - cbn [negb leading_dots Str.drop replicate app]. by rewrite IH.
  - cbn [negb]. assert (leading_dots (String rune tail) = 0) as ->.
    { destruct rune as [[] [] [] [] [] [] [] []]; try done. }
    done.
Qed.

(** The loop computes the translation the specification words. *)
Lemma import_parts_translated (cwd_posix name : string) :
  import_parts cwd_posix 0 name = translated_parts cwd_posix name.
Proof.
  destruct name as [|rune tail]; [done|].
  unfold translated_parts. cbn [import_parts Nat.eqb andb].
  destruct (Ascii.eqb_spec rune ".") as [->|Hne].
  - cbn [leading_dots Str.drop]. rewrite import_parts_later.
    by destruct (Str.drop (leading_dots tail) tail).
  - cbn [negb]. assert (leading_dots (String rune tail) = 0) as ->.
    { destruct rune as [[] [] [] [] [] [] [] []]; try done. }
    done.
Qed.

(** What the loop over two candidates does. *)
Lemma probe_two (path_lookup : PathLookup) (first second : string) :
  probe self path_lookup [first; second] =
    match resolve path_lookup (Path.of_string first) with
    | Some absolute_path =>
        (Some (MaybeDependency.mk
                 (Some (Dependency.mk (_file_loader self) absolute_path false)) []),
         [CallResolve (Path.of_string first)])
    | None =>
        match resolve path_lookup (Path.of_string second) with
        | Some absolute_path =>
            (Some (MaybeDependency.mk
                     (Some (Dependency.mk (_file_loader self) absolute_path false)) []),
             [CallResolve (Path.of_string first); CallResolve (Path.of_string second)])
        | None =>
            (None, [CallResolve (Path.of_string first); CallResolve (Path.of_string second)])
        end
    end.
Proof.
  cbn [probe]. unfold lookup, tbind, tret; cbn [fst snd].
  destruct (resolve path_lookup (Path.of_string first)); [done|].
  destruct (resolve path_lookup (Path.of_string second)); done.
Qed.

(** What [_resolve_import] does with a name that is not empty. *)
Lemma _resolve_import_probe (path_lookup : PathLookup) (name : string) :
  name ≠ "" →
  _resolve_import self path_lookup name =
    probe self path_lookup
      (candidates (translated_parts (Path.as_posix (cwd path_lookup)) name)).
Proof.
  intros Hname. unfold _resolve_import.
  rewrite string_eqb_empty, bool_decide_eq_false_2 by done.
  by rewrite import_parts_translated.
Qed.

(** What [resolve_import] does once the allow-list has answered. *)
Lemma resolve_import_unfold (path_lookup : PathLookup) (name : string) :
  resolve_import self path_lookup name =
    let compatibility := module_compatibility (_allow_list self) name in
    if Compatibility.known compatibility then
      (MaybeDependency.mk None (Compatibility.problems compatibility),
       [CallModuleCompatibility name])
    else
      let stage := _resolve_import self path_lookup name in
      (default (_fail "import-not-found" ("Could not locate import: " +:+ name))
               (value stage),
       CallModuleCompatibility name :: calls stage).
Proof.
  unfold resolve_import, _resolve_allow_list, tbind, tret, value, calls; cbn [fst snd].
  destruct (module_compatibility (_allow_list self) name) as [[] problems];
    cbn [negb Compatibility.known Compatibility.problems fst snd].
  - by destruct problems.
  - destruct (_resolve_import self path_lookup name) as [[?|] ?];
      cbn [fst snd app default]; by rewrite app_nil_r.
Qed.

(** The candidate loop answers nothing, or a dependency without problems. *)
Lemma probe_value (path_lookup : PathLookup) (cands : list string) (maybe : MaybeDependency) :
  value (probe self path_lookup cands) = Some maybe →
  ∃ dependency, maybe = MaybeDependency.mk (Some dependency) [].
Proof.
  induction cands as [|candidate cands IH]; [done|].
  cbn [probe]. unfold lookup, tbind, tret, value in *; cbn [fst snd] in *.
  destruct (resolve path_lookup (Path.of_string candidate)) as [absolute_path|].
  - intros [= <-]. eauto.
  - exact IH.
Qed.

(** The candidate loop answers nothing when no candidate resolves. *)
Lemma probe_none (path_lookup : PathLookup) (cands : list string) :
  Forall (λ path, resolve path_lookup path = None) (Path.of_string <$> cands) →
  value (probe self path_lookup cands) = None.
Proof.
  induction cands as [|candidate cands IH]; [done|].
  rewrite fmap_cons, Forall_cons. intros [Hnone Hrest].
  cbn [probe]. unfold lookup, tbind, tret, value in *; cbn [fst snd] in *.
  rewrite Hnone. by apply IH.
Qed.

(** The path-search stage, when it answers, names a dependency or a
    problem; so does the failure that stands in when it does not. *)
Lemma resolve_import_stage_decides (path_lookup : PathLookup) (name : string) :
  let answer :=
    default (_fail "import-not-found" ("Could not locate import: " +:+ name))
            (value (_resolve_import self path_lookup name)) in
  ¬ (MaybeDependency.dependency answer = None ∧ MaybeDependency.problems answer = []).
Proof.
  unfold _resolve_import. destruct (String.eqb name "").
  - cbn. by intros [_ ?].
  - destruct (value (probe self path_lookup
                (candidates (import_parts (Path.as_posix (cwd path_lookup)) 0 name))))
      as [maybe|] eqn:Hprobe.
    + apply probe_value in Hprobe as [dependency ->]. cbn. by intros [? _].
    + cbn. by intros [_ ?].
Qed.

End ImportFileResolverFacts.

(** ** The claims on [ImportFileResolver] *)

(** C1, as the code has it. The empty name is answered at once, with no
    dependency and the single problem [ucx-bug], before any path is handed to
    the lookup. For every import name that is not empty, [_resolve_import]
    translates the name as worded (the first leading dot is
    the lookup directory, each further leading dot one [..] step, the rest
    with its dots turned into separators), probes [<path>.py] and then
    [<path>/__init__.py], and the first that resolves becomes a [Dependency]
    that does not inherit the context. From [/root/pkg], the name [.] probes
    [/root/pkg.py] then [/root/pkg/__init__.py], and [..sibling] probes
    [/root/pkg/../sibling.py] then [/root/pkg/../sibling/__init__.py]: the
    parent step stays a [..] segment of the probed path. *)
Theorem resolve_import_translation :
  (∀ (self : ImportFileResolver.t) (path_lookup : PathLookup) (name : string),
     name ≠ "" →
     let path :=
       Str.join "/"
         (ImportFileResolver.translated_parts (Path.as_posix (cwd path_lookup)) name) in
     let first := Path.of_string (path +:+ ".py") in
     let second := Path.of_string (path +:+ "/__init__.py") in
     let found absolute_path :=
       Some (MaybeDependency.mk
               (Some (Dependency.mk (ImportFileResolver._file_loader self) absolute_path false))
               []) in
     ImportFileResolver._resolve_import self path_lookup name =
       match resolve path_lookup first with
       | Some absolute_path => (found absolute_path, [CallResolve first])
       | None =>
           match resolve path_lookup second with
           | Some absolute_path =>
               (found absolute_path, [CallResolve first; CallResolve second])
           | None => (None, [CallResolve first; CallResolve second])
           end
       end) ∧
  probed (ImportFileResolver._resolve_import sample_resolver empty_lookup ".") =
    [Path.of_string "/root/pkg.py"; Path.of_string "/root/pkg/__init__.py"] ∧
  probed (ImportFileResolver._resolve_import sample_resolver empty_lookup "..sibling") =
    [Path.of_string "/root/pkg/../sibling.py";
     Path.of_string "/root/pkg/../sibling/__init__.py"] ∧
  (∀ (self : ImportFileResolver.t) (path_lookup : PathLookup),
     ImportFileResolver._resolve_import self path_lookup "" =
       (Some (MaybeDependency.mk None
                [DependencyProblem.mk "ucx-bug" "Import name is empty"]),
        [])).
Proof.
  split_and!; [|by vm_compute..|done].
  intros self path_lookup name Hname path first second found.
  rewrite _resolve_import_probe by done.
  unfold ImportFileResolver.candidates. by rewrite probe_two.
Qed.

Lemma resolve_import_translation_witness :
  ImportFileResolver._resolve_import sample_resolver full_lookup "..sibling" =
    (Some (MaybeDependency.mk
             (Some (Dependency.mk FileLoader (Path.of_string "/root/pkg/../sibling.py") false))
             []),
     [CallResolve (Path.of_string "/root/pkg/../sibling.py")]).
Proof.
  pose proof (proj1 resolve_import_translation sample_resolver full_lookup "..sibling") as H.
  specialize (H ltac:(done)). exact H.
Defined.

(** C1, as the claim words it, fails twice: the empty name is answered
    without any probe, and [..sibling] from [/root/pkg] does not probe the
    path [/root/sibling.py]. *)
Lemma resolve_import_translation_counterexample :
  probed (ImportFileResolver._resolve_import sample_resolver empty_lookup "") = [] ∧
  probed (ImportFileResolver._resolve_import sample_resolver empty_lookup "..sibling") ≠
    [Path.of_string "/root/sibling.py"; Path.of_string "/root/sibling/__init__.py"].
Proof. split; [by vm_compute|]. vm_compute. discriminate. Qed.

(** C2. For every name the allow-list knows, [resolve_import] hands no path
    to the lookup, whatever the lookup would resolve, and returns no
    dependency together with exactly the allow-list's problems. *)
Theorem resolve_import_known (self : ImportFileResolver.t) (path_lookup : PathLookup)
    (name : string) :
  let compatibility := module_compatibility (ImportFileResolver._allow_list self) name in
  Compatibility.known compatibility = true →
  probed (ImportFileResolver.resolve_import self path_lookup name) = [] ∧
  calls (ImportFileResolver.resolve_import self path_lookup name) =
    [CallModuleCompatibility name] ∧
  value (ImportFileResolver.resolve_import self path_lookup name) =
    MaybeDependency.mk None (Compatibility.problems compatibility).
Proof.
  intros compatibility Hknown. rewrite resolve_import_unfold.
  fold compatibility. cbn zeta. by rewrite Hknown.
Qed.

Lemma resolve_import_known_witness :
  probed (ImportFileResolver.resolve_import sample_resolver full_lookup "dbutils") = [] ∧
  calls (ImportFileResolver.resolve_import sample_resolver full_lookup "dbutils") =
    [CallModuleCompatibility "dbutils"] ∧
  value (ImportFileResolver.resolve_import sample_resolver full_lookup "dbutils") =
    MaybeDependency.mk None [flagged].
Proof. apply (resolve_import_known sample_resolver full_lookup "dbutils"). reflexivity. Defined.

(** C3, as the code has it. In the chain of [resolve_import] a stage says
    "not applicable, try the next stage" by answering no [MaybeDependency] at
    all; every [MaybeDependency] a stage answers is returned as it is, with
    or without problems, and no later stage is consulted. [resolve_import]
    returns no dependency and no problems exactly when the allow-list knows
    the name and reports nothing, and then no path was handed to the
    lookup. *)
Theorem resolve_import_stage_results (self : ImportFileResolver.t)
    (path_lookup : PathLookup) (name : string) :
  let stage := ImportFileResolver._resolve_allow_list self name in
  let next := ImportFileResolver._resolve_import self path_lookup name in
  let result := ImportFileResolver.resolve_import self path_lookup name in
  let compatibility := module_compatibility (ImportFileResolver._allow_list self) name in
  (∀ maybe, value stage = Some maybe → result = (maybe, calls stage)) ∧
  (value stage = None →
     value result =
       default (ImportFileResolver._fail "import-not-found" ("Could not locate import: " +:+ name))
               (value next) ∧
     calls result = calls stage ++ calls next) ∧
  (MaybeDependency.dependency (value result) = None ∧
   MaybeDependency.problems (value result) = [] ↔
   Compatibility.known compatibility = true ∧ Compatibility.problems compatibility = []) ∧
  (MaybeDependency.dependency (value result) = None →
   MaybeDependency.problems (value result) = [] →
   probed result = []).
Proof.
  intros stage next result compatibility.
  assert (Hstage : stage =
    (if Compatibility.known compatibility
     then Some (MaybeDependency.mk None (Compatibility.problems compatibility)) else None,
     [CallModuleCompatibility name])).
  { unfold stage, ImportFileResolver._resolve_allow_list, tbind, tret; cbn [fst snd].
    fold compatibility. destruct compatibility as [[] [|problem problems]]; done. }
  assert (Hresult : result =
    if Compatibility.known compatibility then
      (MaybeDependency.mk None (Compatibility.problems compatibility),
       [CallModuleCompatibility name])
    else
      (default (ImportFileResolver._fail "import-not-found" ("Could not locate import: " +:+ name))
               (value next),
       CallModuleCompatibility name :: calls next)).
  { unfold result. by rewrite resolve_import_unfold. }
  assert (Hnext : Compatibility.known compatibility = false →
    ¬ (MaybeDependency.dependency (value result) = None ∧
       MaybeDependency.problems (value result) = [])).
  { intros Hunknown. rewrite Hresult, Hunknown. unfold value at 1 2; cbn [fst].
    by apply resolve_import_stage_decides. }
  rewrite Hstage, Hresult. unfold value at 1 2, calls at 1 3; cbn [fst snd].
  destruct (Compatibility.known compatibility) eqn:Hknown; cbn [fst snd].
  - split_and!; [by intros maybe [= <-]|done|unfold value; cbn; tauto|done].
  - split_and!; [done|done| |].
    + split; [|by intros [? _]]. intros Hempty. exfalso. apply (Hnext eq_refl).
      by rewrite Hresult.
    + intros Hdep Hproblems. exfalso. apply (Hnext eq_refl).
      by rewrite Hresult.
Qed.

Lemma resolve_import_stage_results_witness :
  ImportFileResolver.resolve_import sample_resolver full_lookup "os" =
    (MaybeDependency.mk None [], [CallModuleCompatibility "os"]) ∧
  value (ImportFileResolver.resolve_import sample_resolver full_lookup "pkg.mod") =
    MaybeDependency.mk
      (Some (Dependency.mk FileLoader (Path.of_string "pkg/mod.py") false)) [].
Proof.
  split.
  - apply (proj1 (resolve_import_stage_results sample_resolver full_lookup "os")).
    reflexivity.
  - pose proof (proj1 (proj2 (resolve_import_stage_results sample_resolver full_lookup "pkg.mod")))
      as H.
    destruct (H eq_refl) as [Hvalue _]. exact Hvalue.
Defined.

(** C3, as the claim words it, fails: for [os], known and not flagged, the
    allow-list stage answers no dependency and no problems, and this is the
    final answer of [resolve_import]; the path search is not consulted, though
    it would have found [os.py]. *)
Lemma resolve_import_stage_results_counterexample :
  value (ImportFileResolver._resolve_allow_list sample_resolver "os") =
    Some (MaybeDependency.mk None []) ∧
  ImportFileResolver.resolve_import sample_resolver full_lookup "os" =
    (MaybeDependency.mk None [], [CallModuleCompatibility "os"]) ∧
  value (ImportFileResolver._resolve_import sample_resolver full_lookup "os") =
    Some (MaybeDependency.mk
            (Some (Dependency.mk FileLoader (Path.of_string "os.py") false)) []).
Proof. by vm_compute. Qed.

(** C4. For every name the allow-list does not know: the empty name gives no
    dependency and the single problem [ucx-bug]; a name that is not empty and
    neither of whose candidates resolves gives no dependency and the single
    problem [import-not-found]; the empty name never gives
    [import-not-found]. *)
Theorem resolve_import_not_allow_listed (self : ImportFileResolver.t)
    (path_lookup : PathLookup) (name : string) :
  Compatibility.known (module_compatibility (ImportFileResolver._allow_list self) name) = false →
  let result := value (ImportFileResolver.resolve_import self path_lookup name) in
  (name = "" →
     MaybeDependency.dependency result = None ∧
     ∃ problem, MaybeDependency.problems result = [problem] ∧
                DependencyProblem.code problem = "ucx-bug") ∧
  (name ≠ "" →
     Forall (λ path, resolve path_lookup path = None)
            (ImportFileResolver.probes path_lookup name) →
     MaybeDependency.dependency result = None ∧
     ∃ problem, MaybeDependency.problems result = [problem] ∧
                DependencyProblem.code problem = "import-not-found") ∧
  (name = "" →
     Forall (λ problem, DependencyProblem.code problem ≠ "import-not-found")
            (MaybeDependency.problems result)).
Proof.
  intros Hunknown result. unfold result. rewrite resolve_import_unfold.
  cbn zeta. rewrite Hunknown. unfold value at 1 3 5; cbn [fst].
  split_and!.
  - intros ->. cbn. eauto.
  - intros Hname Hnone. unfold ImportFileResolver._resolve_import.
    rewrite string_eqb_empty, bool_decide_eq_false_2 by done.
    rewrite probe_none by done. cbn. eauto.
  - intros ->. cbn. by repeat constructor.
Qed.

Lemma resolve_import_not_allow_listed_witness :
  value (ImportFileResolver.resolve_import sample_resolver empty_lookup "") =
    MaybeDependency.mk None [DependencyProblem.mk "ucx-bug" "Import name is empty"] ∧
  MaybeDependency.dependency
    (value (ImportFileResolver.resolve_import sample_resolver empty_lookup "pkg.mod")) = None ∧
  ∃ problem,
    MaybeDependency.problems
      (value (ImportFileResolver.resolve_import sample_resolver empty_lookup "pkg.mod")) = [problem] ∧
    DependencyProblem.code problem = "import-not-found".
Proof.
  split.
  - destruct (resolve_import_not_allow_listed sample_resolver empty_lookup "" eq_refl)
      as [Hempty _].
    destruct (Hempty eq_refl) as [_ [problem [Hproblems _]]]. reflexivity.
  - destruct (resolve_import_not_allow_listed sample_resolver empty_lookup "pkg.mod" eq_refl)
      as [_ [Hmissing _]].
    apply Hmissing; [discriminate|]. vm_compute. by repeat constructor.
Defined.

(** C8. For every path, [resolve_file] asks the lookup once: a path that
    resolves gives a [Dependency] on the resolved path and no problems; any
    other gives no dependency and the single problem [file-not-found]. Either
    way the answer is a value of [MaybeDependency]. *)
Theorem resolve_file_result (default_inherits_context : bool)
    (self : ImportFileResolver.t) (path_lookup : PathLookup) (path : Path) :
  let result := ImportFileResolver.resolve_file default_inherits_context self path_lookup path in
  calls result = [CallResolve path] ∧
  (∀ absolute_path,
     resolve path_lookup path = Some absolute_path →
     MaybeDependency.dependency (value result) =
       Some (Dependency.mk (ImportFileResolver._file_loader self) absolute_path
                           default_inherits_context) ∧
     MaybeDependency.problems (value result) = []) ∧
  (resolve path_lookup path = None →
     MaybeDependency.dependency (value result) = None ∧
     ∃ problem, MaybeDependency.problems (value result) = [problem] ∧
                DependencyProblem.code problem = "file-not-found").
Proof.
  intros result. unfold result, ImportFileResolver.resolve_file,
    ImportFileResolver.lookup, tbind, tret, value, calls; cbn [fst snd].
  destruct (resolve path_lookup path) as [absolute_path|]; cbn [fst snd].
  - split_and!; [done| |done]. by intros ? [= <-].
  - split_and!; [done|done|]. intros _. split; [done|]. eauto.
Qed.

Lemma resolve_file_result_witness :
  MaybeDependency.dependency
    (value (ImportFileResolver.resolve_file true sample_resolver full_lookup
              (Path.of_string "/root/pkg/a.py"))) =
    Some (Dependency.mk FileLoader (Path.of_string "/root/pkg/a.py") true) ∧
  MaybeDependency.dependency
    (value (ImportFileResolver.resolve_file true sample_resolver empty_lookup
              (Path.of_string "/root/pkg/a.py"))) = None.
Proof.
  split.
  - apply (resolve_file_result true sample_resolver full_lookup (Path.of_string "/root/pkg/a.py")).
    reflexivity.
  - apply (resolve_file_result true sample_resolver empty_lookup (Path.of_string "/root/pkg/a.py")).
    reflexivity.
Defined.

(** ** The claims on [Folder] *)

Section FolderFacts.

Context `{DependencyGraph G}.
Variable fs : FileSystem.
Variable self : Folder.t.

(** The loop registers the children's dependencies one after the other. *)
Lemma register_children_all (parent : G) (children : list Path) :
  Folder.register_children fs self parent children =
    register_all parent (Folder.child_dependency fs self <$> children).
Proof.
  revert parent; induction children as [|child_path children IH]; intros parent; [done|].
  cbn [Folder.register_children register_all fmap list_fmap]. by rewrite IH.
Qed.

End FolderFacts.

(** What registering a list does to a journal. *)
Lemma register_all_journal (parent : Journal) (dependencies : list Dependency) :
  register_all parent dependencies =
    (dependencies ≫= report parent,
     {| report := report parent; registered := registered parent ++ dependencies |}).
Proof.
  revert parent; induction dependencies as [|d dependencies IH]; intros parent.
  - cbn. rewrite app_nil_r. by destruct parent.
  - cbn [register_all register_dependency Journal_graph fst snd MaybeGraph.problems].
    rewrite IH. cbn [report registered fst snd]. by rewrite <- app_assoc.
Qed.

Lemma elem_of_denylist (name : string) :
  name ∈ Folder.denylist ↔
  name ∈ ["__pycache__"; ".git"; ".github"; ".venv"; ".mypy_cache"; "site-packages"].
Proof.
  unfold Folder.denylist.
  rewrite !elem_of_union, !elem_of_singleton, !elem_of_cons, elem_of_nil. tauto.
Qed.

(** C5. A folder whose final path segment is exactly one of the six listed
    names registers nothing on the parent graph, which is handed back as it
    was, and returns no problems; a folder with any other final segment is
    not pruned, whatever the segments before it. *)
Theorem build_dependency_graph_pruned `{DependencyGraph G} (fs : FileSystem)
    (self : Folder.t) (parent : G) :
  let final_segment := List.last (Path.parts (Folder._path self)) "" in
  let listed := ["__pycache__"; ".git"; ".github"; ".venv"; ".mypy_cache"; "site-packages"] in
  (final_segment ∈ listed →
     Folder.build_dependency_graph fs self parent = Some ([], parent)) ∧
  (final_segment ∉ listed →
     Folder.build_dependency_graph fs self parent =
       Folder._build_dependency_graph fs self parent).
Proof.
  intros final_segment listed. unfold Folder.build_dependency_graph.
  split; intros Hname; case_decide as Hdeny; try done.
  - exfalso. by apply Hdeny, elem_of_denylist.
  - exfalso. by apply Hname, elem_of_denylist.
Qed.

Lemma build_dependency_graph_pruned_witness :
  Folder.build_dependency_graph sample_fs (folder_at "/repo/.git") sample_journal =
    Some ([], sample_journal) ∧
  Folder.build_dependency_graph sample_fs (folder_at "/repo/.git/hooks") sample_journal =
    Folder._build_dependency_graph sample_fs (folder_at "/repo/.git/hooks") sample_journal.
Proof.
  split.
  - apply (build_dependency_graph_pruned sample_fs (folder_at "/repo/.git") sample_journal).
    apply (bool_decide_eq_true_1 _). vm_compute. reflexivity.
  - apply (build_dependency_graph_pruned sample_fs (folder_at "/repo/.git/hooks") sample_journal).
    apply (bool_decide_eq_false_1 _). vm_compute. reflexivity.
Defined.

(** C9. A folder that is not pruned and can be listed registers, for each
    entry in turn, one dependency on the entry's own path (the folder's path
    with the entry's name added, nothing deeper): with the notebook loader
    when the entry is a notebook, the file loader when it is a file that is
    not a notebook, the folder loader otherwise, and inheriting the context
    exactly when it is a notebook. The problems returned are those of the
    registrations, in order. *)
Theorem build_dependency_graph_children `{DependencyGraph G} (fs : FileSystem)
    (self : Folder.t) (parent : G) (names : list string) :
  Path.name (Folder._path self) ∉ Folder.denylist →
  listdir fs (Folder._path self) = Some names →
  let dependencies :=
    Folder.child_dependency fs self <$> (Path.child (Folder._path self) <$> names) in
  Folder.build_dependency_graph fs self parent = Some (register_all parent dependencies) ∧
  Forall2 (λ name dependency,
    let child_path := Dependency.path dependency in
    Path.root child_path = Path.root (Folder._path self) ∧
    Path.parts child_path = Path.parts (Folder._path self) ++ [name] ∧
    Dependency.inherits_context dependency = is_a_notebook fs child_path ∧
    Dependency.loader dependency =
      if is_a_notebook fs child_path then Folder._notebook_loader self
      else if is_file fs child_path then Folder._file_loader self
      else Folder._folder_loader self)
    names dependencies.
Proof.
  intros Hname Hlist dependencies. unfold dependencies.
  split.
  - unfold Folder.build_dependency_graph, Folder._build_dependency_graph, iterdir.
    rewrite decide_False by done. rewrite Hlist. cbn [fmap option_fmap option_map].
    by rewrite register_children_all.
  - clear Hlist. induction names as [|name names IH]; constructor; [|exact IH].
    by cbn.
Qed.

Lemma build_dependency_graph_children_witness :
  Folder.build_dependency_graph sample_fs (folder_at "/repo") sample_journal =
    Some ([DependencyProblem.mk "import-not-found" "Could not locate import: missing"],
          {| report := report sample_journal;
             registered :=
               [Dependency.mk NotebookLoader (Path.of_string "/repo/nb.py") true;
                Dependency.mk FileLoader (Path.of_string "/repo/mod.py") false;
                Dependency.mk FolderLoader (Path.of_string "/repo/pkg") false;
                Dependency.mk FolderLoader (Path.of_string "/repo/.git") false] |}).
Proof.
  destruct (build_dependency_graph_children sample_fs (folder_at "/repo") sample_journal
              ["nb.py"; "mod.py"; "pkg"; ".git"]) as [Hbuild _].
  - apply (bool_decide_eq_false_1 _). vm_compute. reflexivity.
  - reflexivity.
  - rewrite Hbuild. vm_compute. reflexivity.
Defined.

(** ** The claim on [LocalFileMigrator] *)

Section LocalFileMigratorFacts.

Import LocalFileMigrator.

Variable context : LinterContext.
Variable language : Language.

(** Without a fixer for any advice the loop leaves code and flag alone. *)
Lemma apply_fixers_none (advices : list Advice) (code : string) (applied : bool) :
  Forall (λ advice, fixer context language (Advice.code advice) = None) advices →
  apply_fixers context language advices code applied = (code, applied).
Proof.
  induction 1 as [|advice advices Hnone _ IH]; [done|].
  cbn [apply_fixers]. by rewrite Hnone.
Qed.

(** The flag is raised only by an advice that has a fixer. *)
Lemma apply_fixers_applied (advices : list Advice) (code : string) (applied : bool) :
  (apply_fixers context language advices code applied).2 = true →
  applied = true ∨
  ∃ advice, advice ∈ advices ∧ is_Some (fixer context language (Advice.code advice)).
Proof.
  revert code applied; induction advices as [|advice advices IH]; intros code applied.
  - cbn. auto.
  - cbn [apply_fixers].
    destruct (fixer context language (Advice.code advice)) as [applicable|] eqn:Hfixer.
    + intros _. right. exists advice. split; [by left|by rewrite Hfixer].
    + intros Happlied. destruct (IH _ _ Happlied) as [?|[advice' [Hin Hsome]]]; [by left|].
      right. exists advice'. split; [by right|done].
Qed.

End LocalFileMigratorFacts.

(** The extensions [__init__] installs. *)
Lemma extensions_lookup (context_factory : unit → LinterContext) (suffix : string) :
  LocalFileMigrator._extensions (LocalFileMigrator.__init__ context_factory) !! suffix =
    if decide (suffix = ".py") then Some PYTHON
    else if decide (suffix = ".sql") then Some SQL
    else None.
Proof.
  unfold LocalFileMigrator.__init__; cbn [LocalFileMigrator._extensions].
  repeat case_decide; subst.
  - by rewrite lookup_insert_eq.
  - rewrite lookup_insert_ne by done. by rewrite lookup_singleton_eq.
  - rewrite lookup_insert_ne by done. by rewrite lookup_singleton_ne.
Qed.

Lemma written_app (disk : Disk) (contents : gmap Path Content) (denied : gset Path)
    (entries : list (Path * Mode)) :
  written disk {| files := contents; locked := denied; opened := opened disk ++ entries |} =
    omap (λ entry : Path * Mode,
            match entry.2 with ModeW => Some entry.1 | ModeR => None end) entries.
Proof. unfold written; cbn [opened]. by rewrite drop_app_length. Qed.

Lemma written_same (disk : Disk) : written disk disk = [].
Proof. unfold written. by rewrite drop_all. Qed.

(** [_apply_file_fix], case by case. *)
Lemma _apply_file_fix_cases (context_factory : unit → LinterContext) (path : Path) (disk : Disk) :
  let self := LocalFileMigrator.__init__ context_factory in
  let context := context_factory () in
  LocalFileMigrator._apply_file_fix self path disk =
    match LocalFileMigrator._extensions self !! Path.suffix path with
    | None => (Returned false, disk)
    | Some language =>
        match files disk !! path with
        | None => (Raised "FileNotFoundError", disk)
        | Some Undecodable => (Returned false, was_read path disk)
        | Some (Text code) =>
            let fixed :=
              LocalFileMigrator.apply_fixers context language
                (linter context language code) code false in
            if fixed.2 then
              if decide (path ∈ locked disk) then
                (Raised "PermissionError", was_read path disk)
              else
                (Returned true,
                 {| files := <[path := Text fixed.1]> (files disk);
                    locked := locked disk;
                    opened := opened disk ++ [(path, ModeR); (path, ModeW)] |})
            else (Returned false, was_read path disk)
        end
    end.
Proof.
  intros self context. unfold LocalFileMigrator._apply_file_fix.
  destruct (LocalFileMigrator._extensions self !! Path.suffix path) as [language|]; [|done].
  unfold io_bind, open_read. destruct (files disk !! path) as [[code|]|]; [|done..].
  cbn [LocalFileMigrator._context_factory self LocalFileMigrator.__init__].
  fold context.
  destruct (LocalFileMigrator.apply_fixers context language
              (linter context language code) code false) as [fixed []]; [|done].
  cbn [fst snd negb]. unfold io_bind, open_write, was_read. cbn [locked files opened].
  case_decide; [done|]. by rewrite <- app_assoc.
Qed.

(** C10. With the extensions [__init__] installs: a path whose suffix is
    neither [.py] nor [.sql] returns [False] and the disk is as it was, no
    file opened; a supported file that does not decode, or none of whose
    advices has a fixer, returns [False] with the files as they were and
    nothing opened for writing; and whenever a file changed or was opened for
    writing, the call returned [True] and some advice of the file's code had
    a fixer. *)
Theorem apply_file_fix_frame (context_factory : unit → LinterContext) (path : Path)
    (disk : Disk) :
  let self := LocalFileMigrator.__init__ context_factory in
  let context := context_factory () in
  let result := LocalFileMigrator._apply_file_fix self path disk in
  (Path.suffix path ∉ [".py"; ".sql"] → result = (Returned false, disk)) ∧
  (∀ language,
     LocalFileMigrator._extensions self !! Path.suffix path = Some language →
     files disk !! path = Some Undecodable →
     result.1 = Returned false ∧ files result.2 = files disk ∧ written disk result.2 = []) ∧
  (∀ language code,
     LocalFileMigrator._extensions self !! Path.suffix path = Some language →
     files disk !! path = Some (Text code) →
     Forall (λ advice, fixer context language (Advice.code advice) = None)
            (linter context language code) →
     result.1 = Returned false ∧ files result.2 = files disk ∧ written disk result.2 = []) ∧
  (files result.2 ≠ files disk ∨ written disk result.2 ≠ [] →
     result.1 = Returned true ∧
     ∃ language code advice,
       LocalFileMigrator._extensions self !! Path.suffix path = Some language ∧
       files disk !! path = Some (Text code) ∧
       advice ∈ linter context language code ∧
       is_Some (fixer context language (Advice.code advice))).
Proof.
  intros self context result. subst result self context.
  rewrite _apply_file_fix_cases. cbn zeta.
  set (self := LocalFileMigrator.__init__ context_factory).
  set (context := context_factory ()). split_and!.
  - intros Hsuffix. unfold self. rewrite extensions_lookup.
    rewrite !elem_of_cons, elem_of_nil in Hsuffix.
    repeat case_decide; tauto.
  - intros language -> ->. unfold was_read. cbn [fst snd files]. by rewrite written_app.
  - intros language code -> -> Hnone. rewrite apply_fixers_none by done.
    unfold was_read. cbn [fst snd files]. by rewrite written_app.
  - destruct (LocalFileMigrator._extensions self !! Path.suffix path) as [language|];
      [|cbn [snd]; rewrite written_same; tauto].
    unfold was_read.
    destruct (files disk !! path) as [[code|]|];
      [|cbn [snd files]; rewrite ?written_app, ?written_same; cbn; tauto..].
    destruct (LocalFileMigrator.apply_fixers context language
                (linter context language code) code false) as [fixed applied] eqn:Hfixed.
    destruct applied; cbn [fst snd files]; [|rewrite written_app; cbn; tauto].
    case_decide; [cbn [fst snd files]; rewrite written_app; cbn; tauto|].
    intros _. split; [done|]. exists language, code.
    destruct (apply_fixers_applied context language (linter context language code) code false)
      as [?|[advice [? ?]]]; [by rewrite Hfixed|done|eauto].
Qed.

Lemma apply_file_fix_frame_witness :
  LocalFileMigrator._apply_file_fix
    (LocalFileMigrator.__init__ (λ _, sample_context [advice_with_fixer]))
    (Path.of_string "/repo/notes.txt") sample_disk = (Returned false, sample_disk) ∧
  (LocalFileMigrator._apply_file_fix
     (LocalFileMigrator.__init__ (λ _, sample_context [advice_with_fixer]))
     (Path.of_string "/repo/blob.py") sample_disk).1 = Returned false ∧
  (LocalFileMigrator._apply_file_fix
     (LocalFileMigrator.__init__ (λ _, sample_context [advice_without_fixer]))
     (Path.of_string "/repo/mod.py") sample_disk).1 = Returned false ∧
  (LocalFileMigrator._apply_file_fix
     (LocalFileMigrator.__init__ (λ _, sample_context [advice_without_fixer; advice_with_fixer]))
     (Path.of_string "/repo/mod.py") sample_disk).1 = Returned true.
Proof.
  split_and!.
  - apply (apply_file_fix_frame (λ _, sample_context [advice_with_fixer])
             (Path.of_string "/repo/notes.txt") sample_disk).
    apply (bool_decide_eq_false_1 _). vm_compute. reflexivity.
  - apply (apply_file_fix_frame (λ _, sample_context [advice_with_fixer])
             (Path.of_string "/repo/blob.py") sample_disk) with PYTHON;
      vm_compute; reflexivity.
  - apply (apply_file_fix_frame (λ _, sample_context [advice_without_fixer])
             (Path.of_string "/repo/mod.py") sample_disk) with PYTHON "spark.table('old')".
    + vm_compute; reflexivity.
    + vm_compute; reflexivity.
    + repeat constructor.
  - apply (apply_file_fix_frame
             (λ _, sample_context [advice_without_fixer; advice_with_fixer])
             (Path.of_string "/repo/mod.py") sample_disk).
    right. vm_compute. discriminate.
Defined.

(** ** The claim on [MigrationSequencer] *)

Section SequencingFacts.

Import MigrationSequencer.

Variable s : MigrationSequencer.t.

Lemma find_none_Forall (P : Key → bool) (l : list Key) :
  List.find P l = None → Forall (λ k, P k = false) l.
Proof.
  induction l as [|k' l IH]; [constructor|]. cbn [List.find].
  destruct (P k') eqn:HP; [done|]. constructor; auto.
Qed.

(** *** A graph with no ready node has a cycle *)

Lemma unmet_remaining (remaining : list Key) (k k' : Key) :
  k' ∈ unmet s remaining k → k' ∈ remaining.
Proof. unfold unmet. rewrite list_elem_of_filter. by intros [? _]. Qed.

Lemma some_unmet_elem (remaining : list Key) (k : Key) :
  ready s remaining k = false → some_unmet s remaining k ∈ unmet s remaining k.
Proof.
  unfold ready, some_unmet. intros Hready%bool_decide_eq_false.
  destruct (unmet s remaining k); [done|]. by left.
Qed.

Lemma iter_some_unmet_remaining (remaining : list Key) (k : Key) (j : nat) :
  Forall (λ k', ready s remaining k' = false) remaining →
  k ∈ remaining → Nat.iter j (some_unmet s remaining) k ∈ remaining.
Proof.
  intros Hstuck Hk. induction j as [|j IH]; [done|]. cbn [Nat.iter].
  eapply unmet_remaining, some_unmet_elem.
  rewrite Forall_forall in Hstuck. by apply Hstuck.
Qed.

Lemma iter_some_unmet_reachable (remaining : list Key) (n j : nat) (k : Key) :
  Forall (λ k', ready s remaining k' = false) remaining →
  k ∈ remaining → j < n →
  Nat.iter (S j) (some_unmet s remaining) k ∈ reachable s n remaining k.
Proof.
  intros Hstuck. revert j k. induction n as [|n IH]; intros j k Hk Hj; [lia|].
  assert (Hnext : some_unmet s remaining k ∈ unmet s remaining k).
  { apply some_unmet_elem. rewrite Forall_forall in Hstuck. by apply Hstuck. }
  cbn [reachable]. apply elem_of_app. destruct j as [|j].
  - by left.
  - right. rewrite Nat.iter_succ_r. apply list_elem_of_In, in_flat_map.
    exists (some_unmet s remaining k). split; [by apply list_elem_of_In|].
    apply list_elem_of_In, IH; [|lia]. by eapply unmet_remaining.
Qed.

Lemma stuck_has_cycle (remaining : list Key) :
  remaining ≠ [] →
  Forall (λ k, ready s remaining k = false) remaining →
  Exists (λ k, on_cycle s remaining k = true) remaining.
Proof.
  intros Hne Hstuck.
  destruct (decide (Exists (λ k, on_cycle s remaining k = true) remaining))
    as [|Hnone]; [done|exfalso].
  apply not_Exists_Forall in Hnone; [|intros k; apply _].
  destruct remaining as [|k0 rest] eqn:Hremaining; [done|]. rewrite <- Hremaining in *.
  assert (Hk0 : k0 ∈ remaining) by (rewrite Hremaining; by left).
  set (n := length remaining).
  set (walk := (λ i, Nat.iter i (some_unmet s remaining) k0) <$> seq 0 (S n)).
  assert (Hwalk : ∀ i x, walk !! i = Some x →
            x = Nat.iter i (some_unmet s remaining) k0 ∧ i ≤ n).
  { intros i x. unfold walk. rewrite list_lookup_fmap_Some.
    intros (i' & -> & Hi'). apply lookup_seq in Hi' as [-> ?]. split; [done|lia]. }
  assert (Hdistinct : NoDup walk).
  { apply NoDup_alt. intros i j x Hi Hj.
    apply Hwalk in Hi as [Hxi ?], Hj as [Hxj ?].
    assert (Hloop : ∀ a b, a < b ≤ n →
              Nat.iter a (some_unmet s remaining) k0 ≠ Nat.iter b (some_unmet s remaining) k0).
    { intros a b Hab Heq.
      set (x' := Nat.iter a (some_unmet s remaining) k0) in *.
      assert (Hx' : x' ∈ remaining) by by apply iter_some_unmet_remaining.
      assert (Hcycle : Nat.iter (S (b - a - 1)) (some_unmet s remaining) x' = x').
      { unfold x' at 1. rewrite <- Nat.iter_add.
        replace (S (b - a - 1) + a) with b by lia. done. }
      rewrite Forall_forall in Hnone. specialize (Hnone _ Hx').
      apply Hnone. unfold on_cycle, requires_in. apply bool_decide_eq_true.
      pose proof (iter_some_unmet_reachable remaining n (b - a - 1) x' Hstuck Hx')
        as Hreach.
      rewrite Hcycle in Hreach. apply Hreach. lia. }
    destruct (Nat.lt_trichotomy i j) as [Hlt|[->|Hgt]]; [|done|].
    - exfalso. apply (Hloop i j); [lia|congruence].
    - exfalso. apply (Hloop j i); [lia|congruence]. }
  assert (Hle : length walk ≤ length remaining).
  { apply submseteq_length, NoDup_submseteq; [done|].
    intros x [i Hi]%list_elem_of_lookup. apply Hwalk in Hi as [-> _].
    by apply iter_some_unmet_remaining. }
  unfold walk in Hle. rewrite length_fmap, length_seq in Hle. fold n in Hle. lia.
Qed.

(** *** Every batch shortens what remains *)

Lemma find_Exists (P : Key → bool) (l : list Key) :
  Exists (λ k, P k = true) l → ∃ k, List.find P l = Some k.
Proof.
  induction 1 as [k l HP|k l _ [k' IH]]; cbn [List.find].
  - rewrite HP. eauto.
  - destruct (P k); eauto.
Qed.

Lemma list_difference_shorter (remaining b : list Key) (k : Key) :
  k ∈ remaining → k ∈ b → length (list_difference remaining b) < length remaining.
Proof.
  intros Hin Hb. induction Hin as [k remaining|k k' remaining Hin IH];
    cbn [list_difference length].
  - destruct (decide_rel elem_of k b); [|done].
    assert (length (list_difference remaining b) ≤ length remaining); [|lia].
    clear. induction remaining as [|k' remaining IH]; cbn [list_difference length]; [lia|].
    case_decide; cbn [length]; lia.
  - specialize (IH Hb). case_decide; cbn [length]; lia.
Qed.

(** *** Chains of requirements *)

Lemma elem_of_unmet (remaining : list Key) (k k' : Key) :
  k' ∈ unmet s remaining k ↔ k' ∈ remaining ∧ k' ∈ requires s k.
Proof. unfold unmet. by rewrite list_elem_of_filter. Qed.

Lemma chain_remaining (remaining : list Key) (k : Key) (path : list Key) :
  chain s remaining k path → Forall (λ k', k' ∈ remaining) path.
Proof.
  revert k; induction path as [|x path IH]; intros k; [constructor|].
  intros [Hx Hpath]. constructor; [by eapply unmet_remaining|by eapply IH].
Qed.

Lemma chain_app (remaining : list Key) (k : Key) (path1 path2 : list Key) :
  chain s remaining k (path1 ++ path2) ↔
  chain s remaining k path1 ∧ chain s remaining (default k (last path1)) path2.
Proof.
  revert k; induction path1 as [|x path1 IH]; intros k; cbn [app chain].
  - cbn. tauto.
  - rewrite IH, last_cons. destruct (last path1); cbn [default]; tauto.
Qed.

(** A chain keeps being one as long as its nodes remain. *)
Lemma chain_transport (remaining remaining' : list Key) (k : Key) (path : list Key) :
  chain s remaining k path → Forall (λ k', k' ∈ remaining') path →
  chain s remaining' k path.
Proof.
  revert k; induction path as [|x path IH]; intros k; [done|].
  intros [Hx Hpath] [Hx' Hpath']%Forall_cons. split; [|by apply IH].
  apply elem_of_unmet. apply elem_of_unmet in Hx. tauto.
Qed.

Lemma reachable_chain (n : nat) (remaining : list Key) (k k' : Key) :
  k' ∈ reachable s n remaining k ↔
  ∃ path, length path ≤ n ∧ chain s remaining k path ∧ last path = Some k'.
Proof.
  revert k; induction n as [|n IH]; intros k; cbn [reachable].
  - split; [by intros ?%elem_of_nil|].
    intros (path & Hlength & _ & Hlast). destruct path; [done|cbn in Hlength; lia].
  - rewrite elem_of_app. split.
    + intros [Hnext|Hlater].
      * exists [k']. cbn. split_and!; [lia|done..].
      * apply list_elem_of_In, in_flat_map in Hlater as (x & Hx%list_elem_of_In & Hk').
        apply list_elem_of_In, IH in Hk' as (path & Hlength & Hpath & Hlast).
        exists (x :: path). rewrite last_cons, Hlast. cbn. split_and!; [lia|done..].
    + intros (path & Hlength & Hpath & Hlast).
      destruct path as [|x path]; [done|]. destruct Hpath as [Hx Hpath].
      destruct path as [|y path].
      * left. by injection Hlast as <-.
      * right. apply list_elem_of_In, in_flat_map. exists x.
        split; [by apply list_elem_of_In|]. apply list_elem_of_In, IH.
        exists (y :: path). rewrite last_cons_cons in Hlast. cbn in Hlength.
        split; [cbn; lia|]. by split.
Qed.

(** A chain can be cut down to one that passes no node twice. *)
Lemma chain_shorten (remaining : list Key) (k k' : Key) (path : list Key) :
  chain s remaining k path → last path = Some k' →
  ∃ path', NoDup path' ∧ chain s remaining k path' ∧ last path' = Some k'.
Proof.
  revert k; induction path as [|x path IH]; intros k; [done|].
  intros [Hx Hpath] Hlast. destruct path as [|y path].
  - exists [x]. split_and!; [apply NoDup_singleton|done..].
  - rewrite last_cons_cons in Hlast.
    destruct (IH x Hpath Hlast) as (path' & Hdistinct & Hpath' & Hlast').
    destruct (decide (x ∈ path')) as [Hin|Hout].
    + apply list_elem_of_split in Hin as (before & after & ->).
      exists (x :: after). split_and!.
      * apply NoDup_app in Hdistinct. tauto.
      * apply chain_app in Hpath' as [_ [_ Hafter]]. by split.
      * rewrite last_app, last_cons in Hlast'. rewrite last_cons.
        by destruct (last after).
    + exists (x :: path'). split_and!.
      * by constructor.
      * by split.
      * rewrite last_cons. by rewrite Hlast'.
Qed.

(** [requires_in] is: there is a chain. *)
Lemma requires_in_chain (remaining : list Key) (k k' : Key) :
  requires_in s remaining k k' = true ↔
  ∃ path, chain s remaining k path ∧ last path = Some k'.
Proof.
  unfold requires_in. rewrite bool_decide_eq_true, reachable_chain. split.
  - intros (path & _ & ? & ?). eauto.
  - intros (path & Hpath & Hlast).
    destruct (chain_shorten _ _ _ _ Hpath Hlast) as (path' & Hdistinct & Hpath' & Hlast').
    exists path'. split_and!; [|done..].
    apply submseteq_length, NoDup_submseteq; [done|].
    apply chain_remaining in Hpath'. rewrite Forall_forall in Hpath'. apply Hpath'.
Qed.

Lemma requires_in_trans (remaining : list Key) (k x k' : Key) :
  requires_in s remaining k x = true → requires_in s remaining x k' = true →
  requires_in s remaining k k' = true.
Proof.
  rewrite !requires_in_chain. intros (path1 & Hpath1 & Hlast1) (path2 & Hpath2 & Hlast2).
  exists (path1 ++ path2). split.
  - apply chain_app. by rewrite Hlast1.
  - by rewrite last_app, Hlast2.
Qed.

Lemma requires_in_unmet (remaining : list Key) (k k' : Key) :
  k' ∈ unmet s remaining k → requires_in s remaining k k' = true.
Proof. intros Hnext. apply requires_in_chain. exists [k']. by cbn. Qed.

(** A node of a chain is required by its start and requires its end. *)
Lemma chain_through (remaining : list Key) (k k' x : Key) (path : list Key) :
  chain s remaining k path → last path = Some k' → x ∈ path →
  requires_in s remaining k x = true ∧ (x = k' ∨ requires_in s remaining x k' = true).
Proof.
  intros Hpath Hlast (before & after & ->)%list_elem_of_split.
  change (x :: after) with ([x] ++ after) in Hpath, Hlast.
  rewrite (assoc_L (++)) in Hpath. apply chain_app in Hpath as [Hbefore Hafter].
  rewrite last_snoc in Hafter. cbn [default] in Hafter. split.
  - apply requires_in_chain. exists (before ++ [x]). by rewrite last_snoc.
  - rewrite !last_app in Hlast. destruct (last after) as [y|] eqn:Hafter_last.
    + right. apply requires_in_chain. exists after. split; [done|congruence].
    + left. cbn in Hlast. congruence.
Qed.

(** Requirements among fewer nodes are requirements among more. *)
Lemma requires_in_mono (remaining remaining' : list Key) (k k' : Key) :
  remaining ⊆ remaining' →
  requires_in s remaining k k' = true → requires_in s remaining' k k' = true.
Proof.
  intros Hsub. rewrite !requires_in_chain. intros (path & Hpath & Hlast).
  exists path. split; [|done]. eapply chain_transport; [done|].
  apply chain_remaining in Hpath. eapply Forall_impl; [done|]. intros x. apply Hsub.
Qed.

(** A chain stays inside a set of nodes that holds what its members
    require. *)
Lemma chain_closed (closed remaining : list Key) (k : Key) (path : list Key) :
  (∀ x y, x ∈ closed → y ∈ requires s x → y ∈ closed) →
  (∀ y, y ∈ requires s k → y ∈ closed) →
  chain s remaining k path → Forall (λ x, x ∈ closed) path.
Proof.
  intros Hclosed. revert k; induction path as [|x path IH]; intros k Hk; [constructor|].
  intros [[_ Hx]%elem_of_unmet Hpath].
  constructor; [by apply Hk|]. apply (IH x); [|done]. intros y. by apply Hclosed, Hk.
Qed.

(** *** What goes next *)

Lemma find_holds (P : Key → bool) (l : list Key) (k : Key) :
  List.find P l = Some k → P k = true ∧ k ∈ l.
Proof. intros [Hin HP]%List.find_some. split; [done|]. by apply list_elem_of_In. Qed.

Lemma elem_of_same_cycle (remaining : list Key) (k0 k : Key) :
  k ∈ List.filter (same_cycle s remaining k0) remaining ↔
  k ∈ remaining ∧ same_cycle s remaining k0 k = true.
Proof. by rewrite list_elem_of_In, filter_In, <- list_elem_of_In. Qed.

Lemma same_cycle_on_cycle (remaining : list Key) (k0 k : Key) :
  on_cycle s remaining k0 = true → same_cycle s remaining k0 k = true →
  on_cycle s remaining k = true.
Proof.
  unfold same_cycle, on_cycle. intros Hk0 [Heq|[H1 H2]%andb_true_iff]%orb_true_iff.
  - apply bool_decide_eq_true in Heq. by subst.
  - by eapply requires_in_trans.
Qed.

(** The nodes that require each other with a node of a cycle are in that
    cycle. *)
Lemma same_cycle_closed (remaining : list Key) (k0 k k' : Key) :
  same_cycle s remaining k0 k = true →
  requires_in s remaining k k' = true → requires_in s remaining k' k = true →
  same_cycle s remaining k0 k' = true.
Proof.
  unfold same_cycle. intros [Heq|[H1 H2]%andb_true_iff]%orb_true_iff Hto Hfrom.
  - apply bool_decide_eq_true in Heq. subst. by rewrite Hto, Hfrom, orb_true_r.
  - rewrite (requires_in_trans _ _ _ _ H1 Hto), (requires_in_trans _ _ _ _ Hfrom H2).
    apply orb_true_r.
Qed.

Lemma ready_unmet (remaining : list Key) (k r : Key) :
  ready s remaining k = true → r ∈ remaining → r ∈ requires s k → False.
Proof.
  unfold ready. intros Hready%bool_decide_eq_true Hr Hrequired.
  assert (Hunmet : r ∈ unmet s remaining k) by by apply elem_of_unmet.
  rewrite Hready in Hunmet. by apply elem_of_nil in Hunmet.
Qed.

Lemma requires_in_not_ready (remaining : list Key) (k k' : Key) :
  requires_in s remaining k k' = true → ready s remaining k = false.
Proof.
  intros (path & Hpath & Hlast)%requires_in_chain.
  destruct path as [|x path]; [done|]. destruct Hpath as [Hx _].
  unfold ready. apply bool_decide_eq_false. intros Hnone.
  rewrite Hnone in Hx. by apply elem_of_nil in Hx.
Qed.

(** Either the first ready node goes next, or no node is ready and the
    cycle of the first node on a cycle goes next. *)
Lemma next_batch_cases (remaining : list Key) :
  remaining ≠ [] →
  (∃ k, next_batch s remaining = [k] ∧ k ∈ remaining ∧ ready s remaining k = true) ∨
  (∃ k, next_batch s remaining = List.filter (same_cycle s remaining k) remaining ∧
        k ∈ remaining ∧ on_cycle s remaining k = true).
Proof.
  intros Hne. unfold next_batch.
  destruct (List.find (ready s remaining) remaining) as [k|] eqn:Hready.
  - left. exists k. apply find_holds in Hready. tauto.
  - right. apply find_none_Forall in Hready.
    destruct (find_Exists _ _ (stuck_has_cycle remaining Hne Hready)) as [k Hcycle].
    rewrite Hcycle. exists k. apply find_holds in Hcycle. tauto.
Qed.

Lemma next_batch_remaining (remaining : list Key) (k : Key) :
  k ∈ next_batch s remaining → k ∈ remaining.
Proof.
  destruct remaining as [|k0 rest] eqn:Hremaining; [by intros ?%elem_of_nil|].
  rewrite <- Hremaining.
  destruct (next_batch_cases remaining) as [(x & -> & Hx & _)|(x & -> & _)];
    [by rewrite Hremaining| |].
  - by intros ->%list_elem_of_singleton.
  - by intros [? _]%elem_of_same_cycle.
Qed.

Lemma next_batch_progress (remaining : list Key) :
  remaining ≠ [] → ∃ k, k ∈ remaining ∧ k ∈ next_batch s remaining.
Proof.
  intros Hne.
  destruct (next_batch_cases remaining Hne) as [(k & -> & Hk & _)|(k & -> & Hk & Hcycle)];
    exists k; (split; [done|]).
  - by left.
  - apply elem_of_same_cycle. split; [done|]. unfold same_cycle.
    by rewrite bool_decide_eq_true_2.
Qed.

Lemma next_batch_NoDup (remaining : list Key) :
  NoDup remaining → NoDup (next_batch s remaining).
Proof.
  intros Hdistinct. destruct remaining as [|k0 rest] eqn:Hremaining; [constructor|].
  rewrite <- Hremaining in *.
  destruct (next_batch_cases remaining) as [(x & -> & _)|(x & -> & _)];
    [by rewrite Hremaining| |].
  - apply NoDup_singleton.
  - by apply NoDup_ListNoDup, List.NoDup_filter, NoDup_ListNoDup.
Qed.

(** *** The order *)

Lemma order_unfold (fuel : nat) (remaining : list Key) :
  remaining ≠ [] →
  order s (S fuel) remaining =
    next_batch s remaining ++
    order s fuel (list_difference remaining (next_batch s remaining)).
Proof. by destruct remaining. Qed.

Lemma order_empty (fuel : nat) : order s fuel [] = [].
Proof. by destruct fuel. Qed.

Lemma list_difference_fuel (fuel : nat) (remaining : list Key) :
  remaining ≠ [] → length remaining ≤ S fuel →
  length (list_difference remaining (next_batch s remaining)) ≤ fuel.
Proof.
  intros Hne Hfuel. destruct (next_batch_progress remaining Hne) as (k & Hin & Hbatch).
  pose proof (list_difference_shorter remaining _ k Hin Hbatch). lia.
Qed.

(** With fuel for every node, the order holds the nodes that remained. *)
Lemma elem_of_order (fuel : nat) (remaining : list Key) (k : Key) :
  length remaining ≤ fuel → k ∈ order s fuel remaining ↔ k ∈ remaining.
Proof.
  revert remaining; induction fuel as [|fuel IH]; intros remaining Hfuel.
  - by destruct remaining; [|cbn in Hfuel; lia].
  - destruct (decide (remaining = [])) as [->|Hne]; [done|].
    rewrite order_unfold, elem_of_app, IH, list_elem_of_difference
      by (done || by apply list_difference_fuel).
    pose proof (next_batch_remaining remaining k).
    destruct (decide (k ∈ next_batch s remaining)); tauto.
Qed.

(** ... each of them once. *)
Lemma order_permutation (fuel : nat) (remaining : list Key) :
  NoDup remaining → length remaining ≤ fuel → order s fuel remaining ≡ₚ remaining.
Proof.
  intros Hdistinct Hfuel. apply NoDup_Permutation; [|done|by intros k; apply elem_of_order].
  revert remaining Hdistinct Hfuel; induction fuel as [|fuel IH];
    intros remaining Hdistinct Hfuel; [destruct remaining; constructor|].
  destruct (decide (remaining = [])) as [->|Hne]; [constructor|].
  rewrite order_unfold by done. apply NoDup_app. split_and!.
  - by apply next_batch_NoDup.
  - intros k Hbatch. rewrite elem_of_order by by apply list_difference_fuel.
    rewrite list_elem_of_difference. tauto.
  - apply IH; [by apply NoDup_list_difference|by apply list_difference_fuel].
Qed.

Lemma list_difference_subseteq (remaining b : list Key) :
  list_difference remaining b ⊆ remaining.
Proof. intros k. rewrite list_elem_of_difference. tauto. Qed.

(** A node on no cycle comes after the nodes it requires. *)
Lemma order_requirement_first (fuel : nat) (remaining : list Key) (k r : Key) :
  length remaining ≤ fuel → k ∈ remaining → r ∈ remaining → r ∈ requires s k →
  on_cycle s remaining k = false →
  [r; k] `sublist_of` order s fuel remaining.
Proof.
  revert remaining; induction fuel as [|fuel IH];
    intros remaining Hfuel Hk Hr Hrequired Hcycle.
  { destruct remaining; [by apply elem_of_nil in Hk|cbn in Hfuel; lia]. }
  assert (Hne : remaining ≠ []) by (intros ->; by apply elem_of_nil in Hk).
  pose proof (list_difference_fuel fuel remaining Hne Hfuel) as Hfuel'.
  rewrite order_unfold by done. set (b := next_batch s remaining) in *.
  assert (Hlater : k ∈ list_difference remaining b).
  { apply list_elem_of_difference. split; [done|]. intros Hbatch. subst b.
    destruct (next_batch_cases remaining Hne)
      as [(x & Hnext & _ & Hready)|(x & Hnext & _ & Hx)]; rewrite Hnext in Hbatch.
    - apply list_elem_of_singleton in Hbatch as ->. by eapply ready_unmet.
    - apply elem_of_same_cycle in Hbatch as [_ Hsame].
      pose proof (same_cycle_on_cycle _ _ _ Hx Hsame). congruence. }
  destruct (decide (r ∈ b)) as [Hbatch|Hbatch].
  - apply (sublist_app [r] _ [k]).
    + by apply singleton_sublist_l.
    + apply singleton_sublist_l. by apply elem_of_order.
  - apply sublist_inserts_l, IH; [done..| |done|].
    + by apply list_elem_of_difference.
    + destruct (on_cycle s (list_difference remaining b) k) eqn:Hstill; [|done].
      unfold on_cycle in *.
      by rewrite (requires_in_mono _ remaining _ _ (list_difference_subseteq _ _) Hstill)
        in Hcycle.
Qed.

Lemma sublist_list_difference (l1 l2 b : list Key) :
  l1 `sublist_of` l2 → list_difference l1 b `sublist_of` list_difference l2 b.
Proof.
  induction 1 as [|x l1 l2 _ IH|x l1 l2 _ IH]; cbn [list_difference];
    [constructor|..]; case_decide; auto using sublist_skip, sublist_cons.
Qed.

Lemma sublist_filter_bool (f : Key → bool) (l1 l2 : list Key) :
  l1 `sublist_of` l2 → List.filter f l1 `sublist_of` List.filter f l2.
Proof.
  induction 1 as [|x l1 l2 _ IH|x l1 l2 _ IH]; cbn [List.filter];
    [constructor|..]; destruct (f x); auto using sublist_skip, sublist_cons.
Qed.

(** Two nodes that require each other still do once a batch has gone that
    holds no node of their cycle. *)
Lemma requires_in_difference (remaining b : list Key) (k k' : Key) :
  requires_in s remaining k k' = true → requires_in s remaining k' k = true →
  (∀ x, requires_in s remaining k x = true → requires_in s remaining x k = true → x ∉ b) →
  requires_in s (list_difference remaining b) k k' = true.
Proof.
  intros Hto Hfrom Havoid.
  destruct (proj1 (requires_in_chain _ _ _) Hto) as (path & Hpath & Hlast).
  apply requires_in_chain. exists path. split; [|done].
  eapply chain_transport; [done|]. apply Forall_forall. intros x Hx.
  destruct (chain_through _ _ _ _ _ Hpath Hlast Hx) as [Hkx Hxk'].
  apply list_elem_of_difference. split.
  - apply chain_remaining in Hpath. rewrite Forall_forall in Hpath. by apply Hpath.
  - apply Havoid; [done|]. destruct Hxk' as [->|Hxk']; [done|].
    by eapply requires_in_trans.
Qed.

(** Two nodes that require each other come in the order they were
    registered in. *)
Lemma order_cycle_registration (fuel : nat) (remaining : list Key) (k k' : Key) :
  length remaining ≤ fuel → [k; k'] `sublist_of` remaining →
  requires_in s remaining k k' = true → requires_in s remaining k' k = true →
  [k; k'] `sublist_of` order s fuel remaining.
Proof.
  revert remaining; induction fuel as [|fuel IH]; intros remaining Hfuel Hsub Hto Hfrom.
  { destruct remaining; [by apply sublist_nil_r in Hsub|cbn in Hfuel; lia]. }
  assert (Hne : remaining ≠ []) by (intros ->; by apply sublist_nil_r in Hsub).
  pose proof (list_difference_fuel fuel remaining Hne Hfuel) as Hfuel'.
  rewrite order_unfold by done. set (b := next_batch s remaining) in *.
  assert (Hkk : requires_in s remaining k k = true) by by eapply requires_in_trans.
  assert (Hlater :
    (∀ x, requires_in s remaining k x = true → requires_in s remaining x k = true → x ∉ b) →
    [k; k'] `sublist_of` b ++ order s fuel (list_difference remaining b)).
  { intros Havoid. apply sublist_inserts_l, IH; [done| |..].
    - apply (sublist_list_difference _ _ b) in Hsub. cbn [list_difference] in Hsub.
      destruct (decide_rel elem_of k b) as [Hin|_]; [by apply Havoid in Hin|].
      by destruct (decide_rel elem_of k' b) as [Hin|_]; [apply Havoid in Hin|].
    - by apply requires_in_difference.
    - apply requires_in_difference; [done..|]. intros x Hk'x Hxk'.
      apply Havoid;
        [exact (requires_in_trans _ _ _ _ Hto Hk'x)|exact (requires_in_trans _ _ _ _ Hxk' Hfrom)]. }
  subst b.
  destruct (next_batch_cases remaining Hne)
    as [(x & Hnext & _ & Hready)|(x & Hnext & _ & Hx)]; rewrite Hnext in Hlater |- *.
  - apply Hlater. intros y _ Hyk ->%list_elem_of_singleton.
    apply requires_in_not_ready in Hyk. congruence.
  - destruct (same_cycle s remaining x k) eqn:Hsame.
    + apply sublist_inserts_r.
      apply (sublist_filter_bool (same_cycle s remaining x)) in Hsub.
      cbn [List.filter] in Hsub.
      by rewrite Hsame, (same_cycle_closed _ _ _ _ Hsame Hto Hfrom) in Hsub.
    + apply Hlater. intros y Hky Hyk [_ Hy]%elem_of_same_cycle.
      by rewrite (same_cycle_closed _ _ _ _ Hy Hyk Hky) in Hsame.
Qed.

End SequencingFacts.

(** *** Registration *)

Section RegistrationFacts.

Import MigrationSequencer.

Lemma find_node_registered (s : t) (k : Key) :
  k ∈ keys s → ∃ node, find_node s k = Some node ∧ key_of node = k.
Proof.
  unfold keys, find_node. induction (_nodes s) as [|node nodes IH];
    [by intros ?%elem_of_nil|].
  rewrite fmap_cons. cbn [List.find]. case_bool_decide as Hnode; [eauto|].
  intros [?|?]%elem_of_cons; [done|auto].
Qed.

Lemma find_node_fresh (s : t) (k : Key) : k ∉ keys s → find_node s k = None.
Proof.
  unfold keys, find_node. induction (_nodes s) as [|node nodes IH]; [done|].
  rewrite fmap_cons, not_elem_of_cons. intros [Hnode Hnodes]. cbn [List.find].
  rewrite bool_decide_eq_false_2 by done. auto.
Qed.

Lemma register_dependency_keys (s : t) (parent : option Key) (k : Key) :
  keys (register_dependency s parent k.1 k.2) =
    if decide (k ∈ keys s) then keys s else keys s ++ [k].
Proof.
  destruct k as [object_type object_id]. cbn [fst snd].
  assert (Hnode : keys (register_node s (object_type, object_id)) =
            if decide ((object_type, object_id) ∈ keys s) then keys s
            else keys s ++ [(object_type, object_id)]).
  { unfold register_node. case_decide as Hk.
    - by destruct (find_node_registered s _ Hk) as (node & -> & _).
    - rewrite find_node_fresh by done. unfold keys. cbn [_nodes]. by rewrite fmap_app. }
  unfold register_dependency. destruct parent as [parent|]; [|done].
  unfold add_requirement. by case_bool_decide.
Qed.

Lemma register_node_requires (s : t) (k x : Key) :
  requires (register_node s k) x = requires s x.
Proof. unfold register_node. by destruct (find_node s k). Qed.

Lemma register_dependency_requires (s : t) (parent k x : Key) :
  requires (register_dependency s (Some parent) k.1 k.2) x =
    if decide (x = parent) then
      if decide (k ∈ requires s parent) then requires s parent
      else requires s parent ++ [k]
    else requires s x.
Proof.
  destruct k as [object_type object_id]. cbn [fst snd].
  unfold register_dependency, add_requirement. rewrite register_node_requires.
  case_bool_decide as Hk.
  - rewrite register_node_requires.
    case_decide as Hx; [subst; by rewrite decide_True|done].
  - unfold requires at 1. cbn [_requires]. case_decide as Hx.
    + subst. by rewrite decide_False, lookup_insert_eq.
    + rewrite lookup_insert_ne by done. apply register_node_requires.
Qed.

Lemma register_dependency_NoDup (s : t) (parent : option Key) (object_type object_id : string) :
  NoDup (keys s) → NoDup (keys (register_dependency s parent object_type object_id)).
Proof.
  intros Hdistinct.
  pose proof (register_dependency_keys s parent (object_type, object_id)) as Hkeys.
  cbn [fst snd] in Hkeys. rewrite Hkeys.
  case_decide as Hk; [done|]. apply NoDup_app. split_and!; [done| |apply NoDup_singleton].
  by intros x Hx ->%list_elem_of_singleton.
Qed.

Lemma visit_unfold (fuel : nat) (graph : Arena) (node : Key) (st : t * list Key) :
  visit (S fuel) graph node st =
    if bool_decide (node ∈ st.2) then st
    else
      let children := default [] (graph !! node) in
      let s := foldl (λ s child, register_dependency s (Some node) child.1 child.2)
                     st.1 children in
      foldl (λ st child, visit fuel graph child st) (s, node :: st.2) children.
Proof. reflexivity. Qed.

Lemma visit_first (fuel : nat) (graph : Arena) (node : Key) (st : t * list Key)
    (children : list Key) :
  graph !! node = Some children → node ∉ st.2 →
  visit (S fuel) graph node st =
    foldl (λ st child, visit fuel graph child st)
          (foldl (λ s child, register_dependency s (Some node) child.1 child.2)
                 st.1 children,
           node :: st.2)
          children.
Proof.
  intros Hchildren Hnode. rewrite visit_unfold, bool_decide_eq_false_2 by done.
  cbn zeta. set (registered := _ !! _).
  change (registered = Some children) in Hchildren. clearbody registered. by subst.
Qed.

Lemma visit_again (fuel : nat) (graph : Arena) (node : Key) (st : t * list Key) :
  node ∈ st.2 → visit (S fuel) graph node st = st.
Proof. intros Hnode. by rewrite visit_unfold, bool_decide_eq_true_2. Qed.

(** The walk keeps the registered objects distinct and visits no artifact
    twice. *)
Lemma visit_NoDup (fuel : nat) (graph : Arena) (node : Key) (st : t * list Key) :
  NoDup (keys st.1) → NoDup st.2 →
  NoDup (keys (visit fuel graph node st).1) ∧ NoDup (visit fuel graph node st).2.
Proof.
  revert node st; induction fuel as [|fuel IH]; intros node st Hkeys Hvisited; [done|].
  rewrite visit_unfold. case_bool_decide as Hnode; [done|]. cbn zeta.
  assert (Hregistered : ∀ children s,
    NoDup (keys s) →
    NoDup (keys (foldl (λ s child, register_dependency s (Some node) child.1 child.2)
                       s children))).
  { induction children as [|child children IHc]; intros s Hs; [done|].
    cbn [foldl]. by apply IHc, register_dependency_NoDup. }
  assert (Hvisits : ∀ children st',
    NoDup (keys st'.1) ∧ NoDup st'.2 →
    NoDup (keys (foldl (λ st child, visit fuel graph child st) st' children).1) ∧
    NoDup (foldl (λ st child, visit fuel graph child st) st' children).2).
  { induction children as [|child children IHc]; intros st' Hst'; [done|].
    cbn [foldl]. destruct Hst'. by apply IHc, IH. }
  apply Hvisits. split; [by apply Hregistered|]. by constructor.
Qed.

(** *** The registered graph of the cyclic test *)

Local Ltac distinct :=
  cbn [fst snd]; rewrite ?elem_of_cons, ?elem_of_nil; intuition congruence.

Lemma cyclic_run_state (root a b : Key) :
  root ≠ a → root ≠ b → a ≠ b →
  let s := cyclic_run root a b in
  keys s = [root; a; b] ∧
  requires s root = [a; b] ∧ requires s a = [b] ∧ requires s b = [a].
Proof.
  intros Hra Hrb Hab.
  assert (Hroot : cyclic_graph root a b !! root = Some [a; b])
    by apply lookup_insert_eq.
  assert (Ha : cyclic_graph root a b !! a = Some [b]).
  { unfold cyclic_graph, Arena. rewrite lookup_insert_ne by done. apply lookup_insert_eq. }
  assert (Hb : cyclic_graph root a b !! b = Some [a]).
  { unfold cyclic_graph, Arena. rewrite !lookup_insert_ne by done. apply lookup_singleton_eq. }
  assert (Hsize : size (cyclic_graph root a b) = 3).
  { unfold cyclic_graph, Arena. rewrite !map_size_insert_None, map_size_singleton; [done|..].
    - by apply lookup_singleton_ne.
    - rewrite lookup_insert_ne by done. by apply lookup_singleton_ne. }
  unfold cyclic_run, visit_graph. rewrite Hsize.
  set (s0 := register_dependency empty None root.1 root.2).
  rewrite (visit_first _ _ _ _ _ Hroot) by apply not_elem_of_nil. cbn [fst snd foldl].
  rewrite (visit_first _ _ a _ _ Ha) by distinct. cbn [fst snd foldl].
  rewrite (visit_first 1 _ b _ _ Hb) by distinct. cbn [fst snd foldl].
  rewrite (visit_again 0 _ a) by distinct. rewrite (visit_again 2 _ b) by distinct.
  cbn [fst snd].
  assert (Hkeys0 : keys s0 = [root]).
  { unfold s0. rewrite register_dependency_keys. by rewrite decide_False by apply not_elem_of_nil. }
  assert (Hrequires0 : ∀ x, requires s0 x = []).
  { intros x. unfold s0, register_dependency. by rewrite register_node_requires. }
  set (s1 := register_dependency s0 (Some root) a.1 a.2).
  assert (Hkeys1 : keys s1 = [root; a]).
  { unfold s1. by rewrite register_dependency_keys, Hkeys0, decide_False by distinct. }
  assert (Hrequires1 : ∀ x, requires s1 x = if decide (x = root) then [a] else []).
  { intros x. unfold s1. rewrite register_dependency_requires, !Hrequires0.
    by rewrite (decide_False (P := a ∈ [])) by distinct. }
  set (s2 := register_dependency s1 (Some root) b.1 b.2).
  assert (Hkeys2 : keys s2 = [root; a; b]).
  { unfold s2. by rewrite register_dependency_keys, Hkeys1, decide_False by distinct. }
  assert (Hrequires2 : ∀ x, requires s2 x = if decide (x = root) then [a; b] else []).
  { intros x. unfold s2. rewrite register_dependency_requires, !Hrequires1.
    rewrite (decide_True (P := root = root)) by done.
    rewrite (decide_False (P := b ∈ [a])) by distinct. by repeat case_decide. }
  set (s3 := register_dependency s2 (Some a) b.1 b.2).
  assert (Hkeys3 : keys s3 = [root; a; b]).
  { unfold s3. by rewrite register_dependency_keys, Hkeys2, decide_True by distinct. }
  assert (Hrequires3 : ∀ x, requires s3 x =
            if decide (x = a) then [b] else if decide (x = root) then [a; b] else []).
  { intros x. unfold s3. rewrite register_dependency_requires, !Hrequires2.
    rewrite (decide_False (P := a = root)) by done.
    rewrite (decide_False (P := b ∈ [])) by distinct. by repeat case_decide. }
  rewrite register_dependency_keys, Hkeys3, decide_True by distinct.
  rewrite !register_dependency_requires, !Hrequires3.
  rewrite (decide_False (P := b = a)), (decide_False (P := b = root)) by done.
  rewrite (decide_False (P := a ∈ [])) by distinct.
  rewrite (decide_False (P := root = b)), (decide_False (P := a = b)) by done.
  rewrite (decide_False (P := root = a)) by done.
  by rewrite !decide_True by done.
Qed.

End RegistrationFacts.

(** *** The steps *)

Section StepFacts.

Import MigrationSequencer.

Variable ws : Workspace.
Variable s : t.

Lemma steps_of_offset (offset : nat) (ordered : list Key) :
  Forall (λ k, k ∈ keys s) ordered →
  step_key <$> omap id (imap (λ i, as_step ws s (offset + i)) ordered) = ordered ∧
  step_number <$> omap id (imap (λ i, as_step ws s (offset + i)) ordered) =
    seq (S offset) (length ordered).
Proof.
  revert offset; induction ordered as [|k ordered IH]; intros offset Hregistered; [done|].
  apply Forall_cons in Hregistered as [Hk Hordered].
  destruct (find_node_registered s k Hk) as (node & Hnode & _).
  rewrite imap_cons. unfold as_step at 1 3. rewrite Hnode.
  rewrite (imap_ext _ (λ i, as_step ws s (S offset + i)))
    by (intros i x _; cbn; f_equal; lia).
  destruct (IH (S offset) Hordered) as [IHkeys IHnumbers].
  cbn [mbind option_bind omap list_omap id]. rewrite !fmap_cons, IHkeys, IHnumbers.
  destruct k. cbn. by rewrite Nat.add_0_r.
Qed.

(** The steps are the order, numbered from one. *)
Lemma generate_steps_order :
  NoDup (keys s) →
  step_key <$> generate_steps ws s = order s (length (keys s)) (keys s) ∧
  step_number <$> generate_steps ws s = seq 1 (length (keys s)).
Proof.
  intros Hdistinct. unfold generate_steps, steps_of.
  destruct (steps_of_offset 0 (order s (length (keys s)) (keys s))) as [Hkeys Hnumbers].
  { apply Forall_forall. intros k. by rewrite elem_of_order. }
  split; [exact Hkeys|]. etrans; [exact Hnumbers|]. f_equal.
  by rewrite (order_permutation s _ _ Hdistinct).
Qed.

(** A node on no cycle that requires every other node comes last. *)
Lemma order_last (root : Key) :
  NoDup (keys s) → root ∈ keys s → on_cycle s (keys s) root = false →
  (∀ k, k ∈ keys s → k ≠ root → k ∈ requires s root) →
  last (order s (length (keys s)) (keys s)) = Some root.
Proof.
  intros Hdistinct Hroot Hcycle Hrequires.
  pose proof (order_permutation s _ _ Hdistinct (Nat.le_refl _)) as Hall.
  set (ordered := order s (length (keys s)) (keys s)) in *.
  destruct (last ordered) as [k|] eqn:Hlast.
  - destruct (decide (k = root)) as [->|Hk]; [done|exfalso].
    apply last_Some in Hlast as [before Hlast].
    assert (Hin : k ∈ keys s).
    { rewrite <- Hall, Hlast, elem_of_app, list_elem_of_singleton. by right. }
    pose proof (order_requirement_first s _ _ root k (Nat.le_refl _) Hroot Hin
                  (Hrequires k Hin Hk) Hcycle) as Hbefore.
    fold ordered in Hbefore. rewrite Hlast in Hbefore.
    assert (Honce : NoDup (before ++ [k])) by by rewrite <- Hlast, Hall.
    apply NoDup_app in Honce as (_ & Honce & _).
    apply sublist_app_r in Hbefore as (l1 & l2 & Hsplit & Hl1 & Hl2).
    destruct l1 as [|x [|y l1]]; cbn [app] in Hsplit.
    + subst l2. apply sublist_length in Hl2. cbn in Hl2. lia.
    + injection Hsplit as <- <-.
      by apply singleton_sublist_l, list_elem_of_singleton in Hl2.
    + injection Hsplit as <- _. apply (Honce k); [|by left].
      eapply elem_of_sublist; [|done]. by left.
  - apply last_None in Hlast. rewrite Hlast in Hall.
    apply Permutation_nil_l in Hall. rewrite <- Hall in Hroot. by apply elem_of_nil in Hroot.
Qed.

End StepFacts.

(** C6. Whatever was registered, with or without cycles among the
    requirements, [generate_steps] gives every registered object exactly one
    step, the steps numbered from one in their order; objects that require
    each other get their steps in the order they were registered in; an
    object on no cycle gets its step after every registered object it
    requires, so that an object on no cycle that requires all the others
    gets the last step. The walk of [visit_graph] keeps the registered
    objects distinct and visits no artifact twice. For the graph of the
    test, root requiring a and b, a requiring b and b requiring a,
    registered as the test does, whichever three distinct artifacts root, a
    and b are: [generate_steps] returns three steps, one for each of the
    three artifacts, and the last one is the root's. *)
Theorem generate_steps_cyclic (ws : MigrationSequencer.Workspace) :
  (∀ s : MigrationSequencer.t,
     NoDup (MigrationSequencer.keys s) →
     let registered := MigrationSequencer.keys s in
     let steps := MigrationSequencer.generate_steps ws s in
     step_key <$> steps ≡ₚ registered ∧
     MigrationSequencer.step_number <$> steps = seq 1 (length registered) ∧
     (∀ k k',
        [k; k'] `sublist_of` registered →
        MigrationSequencer.requires_in s registered k k' = true →
        MigrationSequencer.requires_in s registered k' k = true →
        [k; k'] `sublist_of` step_key <$> steps) ∧
     (∀ k r,
        k ∈ registered → r ∈ registered → r ∈ MigrationSequencer.requires s k →
        MigrationSequencer.on_cycle s registered k = false →
        [r; k] `sublist_of` step_key <$> steps) ∧
     (∀ root,
        root ∈ registered →
        MigrationSequencer.on_cycle s registered root = false →
        (∀ k, k ∈ registered → k ≠ root → k ∈ MigrationSequencer.requires s root) →
        step_key <$> last steps = Some root)) ∧
  (∀ fuel graph node st,
     NoDup (MigrationSequencer.keys st.1) → NoDup st.2 →
     NoDup (MigrationSequencer.keys (MigrationSequencer.visit fuel graph node st).1) ∧
     NoDup (MigrationSequencer.visit fuel graph node st).2) ∧
  (∀ root a b : MigrationSequencer.Key,
     root ≠ a → root ≠ b → a ≠ b →
     let steps :=
       MigrationSequencer.generate_steps ws (MigrationSequencer.cyclic_run root a b) in
     length steps = 3 ∧
     step_key <$> steps ≡ₚ [root; a; b] ∧
     MigrationSequencer.object_id <$> steps !! 2 = Some root.2 ∧
     step_key <$> last steps = Some root ∧
     step_key <$> steps = [a; b; root]).
Proof.
  assert (Hgeneral : ∀ s : MigrationSequencer.t,
    NoDup (MigrationSequencer.keys s) →
    step_key <$> MigrationSequencer.generate_steps ws s =
      MigrationSequencer.order s (length (MigrationSequencer.keys s))
        (MigrationSequencer.keys s) ∧
    step_key <$> MigrationSequencer.generate_steps ws s ≡ₚ MigrationSequencer.keys s).
  { intros s Hdistinct. destruct (generate_steps_order ws s Hdistinct) as [Hkeys _].
    split; [done|]. rewrite Hkeys. by apply order_permutation. }
  split_and!.
  - intros s Hdistinct registered steps. subst registered steps.
    destruct (Hgeneral s Hdistinct) as [Hkeys Hall]. split_and!.
    + done.
    + by apply generate_steps_order.
    + intros k k' Hregistered Hto Hfrom. rewrite Hkeys.
      by apply order_cycle_registration.
    + intros k r Hk Hr Hrequired Hcycle. rewrite Hkeys.
      by apply order_requirement_first.
    + intros root Hroot Hcycle Hrequires. rewrite <- fmap_last, Hkeys.
      by apply order_last.
  - apply visit_NoDup.
  - intros root a b Hra Hrb Hab steps. subst steps.
    set (s := MigrationSequencer.cyclic_run root a b).
    destruct (cyclic_run_state root a b Hra Hrb Hab) as (Hkeys & Hroot & Ha & Hb).
    fold s in Hkeys, Hroot, Ha, Hb.
    assert (Hdistinct : NoDup (MigrationSequencer.keys s)).
    { rewrite Hkeys. repeat constructor; rewrite ?elem_of_cons, ?elem_of_nil; intuition. }
    destruct (Hgeneral s Hdistinct) as [Hordered Hall].
    set (steps := MigrationSequencer.generate_steps ws s) in *.
    assert (Hlast : last (step_key <$> steps) = Some root).
    { rewrite Hordered. apply order_last; [done|rewrite Hkeys; by left| |].
      - destruct (MigrationSequencer.on_cycle s (MigrationSequencer.keys s) root)
          eqn:Hcycle; [exfalso|done].
        apply requires_in_chain in Hcycle as (path & Hpath & Hlast).
        apply (chain_closed s [a; b]) in Hpath.
        + apply last_Some_elem_of in Hlast. rewrite Forall_forall in Hpath.
          specialize (Hpath _ Hlast). rewrite !elem_of_cons, elem_of_nil in Hpath.
          intuition.
        + intros x y. rewrite !elem_of_cons, !elem_of_nil.
          intros [->|[->|[]]]; rewrite ?Ha, ?Hb, !elem_of_cons, elem_of_nil; intuition.
        + intros y. by rewrite Hroot.
      - intros k. rewrite Hkeys, Hroot, !elem_of_cons, elem_of_nil. intuition. }
    assert (Hcycle : [a; b] `sublist_of` step_key <$> steps).
    { rewrite Hordered. apply order_cycle_registration; [done|..].
      - rewrite Hkeys. by apply sublist_cons.
      - apply requires_in_unmet, elem_of_unmet. rewrite Hkeys, Ha, !elem_of_cons. tauto.
      - apply requires_in_unmet, elem_of_unmet. rewrite Hkeys, Hb, !elem_of_cons. tauto. }
    rewrite Hkeys in Hall.
    assert (Hsteps : step_key <$> steps = [a; b; root]).
    { apply last_Some in Hlast as [before Hbefore]. rewrite Hbefore in Hall, Hcycle |- *.
      rewrite <- Permutation_cons_append in Hall. apply Permutation_cons_inv in Hall.
      symmetry in Hall. apply Permutation_length_2_inv in Hall as [-> | ->]; [done|exfalso].
      cbn [app] in Hcycle.
      apply sublist_cons_r in Hcycle as [Hcycle|(? & [= ? ?] & _)]; [|done].
      apply sublist_cons_r in Hcycle as [Hcycle|(? & [= <-] & Hcycle)].
      - apply sublist_length in Hcycle. cbn in Hcycle. lia.
      - apply singleton_sublist_l, list_elem_of_singleton in Hcycle. done. }
    assert (Hlength : length steps = 3).
    { by rewrite <- (length_fmap step_key), Hsteps. }
    split_and!; [done|done| |by rewrite <- fmap_last|done].
    assert (Hthird : (step_key <$> steps) !! 2 = Some root) by by rewrite Hsteps.
    rewrite list_lookup_fmap in Hthird.
    destruct (steps !! 2) as [step|]; [|done]. injection Hthird as <-. done.
Qed.

Lemma generate_steps_cyclic_witness :
  let s := MigrationSequencer.cyclic_run MigrationSequencer.root_py
             MigrationSequencer.a_py MigrationSequencer.b_py in
  let steps := MigrationSequencer.generate_steps sample_workspace s in
  step_key <$> steps ≡ₚ MigrationSequencer.keys s ∧
  length steps = 3 ∧
  MigrationSequencer.object_id <$> steps !! 2 = Some "root.py" ∧
  MigrationSequencer.object_id <$> steps = ["a.py"; "b.py"; "root.py"].
Proof.
  intros s steps.
  destruct (generate_steps_cyclic sample_workspace) as (Hgeneral & _ & Hscenario).
  destruct (Hgeneral s) as (Hall & _).
  { apply (bool_decide_eq_true_1 _). vm_compute. reflexivity. }
  destruct (Hscenario MigrationSequencer.root_py MigrationSequencer.a_py
              MigrationSequencer.b_py) as (Hlength & _ & Hthird & _ & Hsteps);
    [done..|].
  split_and!; [exact Hall|exact Hlength|exact Hthird|].
  transitivity (snd <$> (step_key <$> steps)); [by rewrite <- list_fmap_compose|].
  unfold steps, s. by rewrite Hsteps.
Defined.

(** * Further properties *)

(** ** Strings and paths *)

Section StringFacts.

Lemma append_nil_l (s : string) : "" +:+ s = s.
Proof. reflexivity. Qed.

Lemma append_cons (c : ascii) (a b : string) : String c a +:+ b = String c (a +:+ b).
Proof. reflexivity. Qed.

Lemma append_nil_r (s : string) : s +:+ "" = s.
Proof. induction s as [|c s IH]; [done|]. by rewrite append_cons, IH. Qed.

Lemma append_assoc (a b c : string) : (a +:+ b) +:+ c = a +:+ (b +:+ c).
Proof. induction a as [|x a IH]; [done|]. by rewrite !append_cons, IH. Qed.

Lemma contains_append (c : ascii) (a b : string) :
  contains c (a +:+ b) = contains c a || contains c b.
Proof.
  induction a as [|x a IH]; [done|].
  rewrite append_cons. cbn [contains]. rewrite IH. by rewrite orb_assoc.
Qed.

(** Replacing a character that does not occur changes nothing. *)
Lemma replace_absent (a b : ascii) (s : string) :
  contains a s = false → Str.replace a b s = s.
Proof.
  induction s as [|c s IH]; [done|]. cbn [contains Str.replace].
  intros [Hc Hs]%orb_false_iff. by rewrite Hc, IH.
Qed.

Lemma replace_append (a b : ascii) (s t : string) :
  Str.replace a b (s +:+ t) = Str.replace a b s +:+ Str.replace a b t.
Proof.
  induction s as [|c s IH]; [done|].
  rewrite append_cons. cbn [Str.replace]. by rewrite IH, append_cons.
Qed.

(** *** [join] *)

Lemma join_cons (sep x : string) (rest : list string) :
  rest ≠ [] → Str.join sep (x :: rest) = x +:+ sep +:+ Str.join sep rest.
Proof. by destruct rest. Qed.

Lemma join_app (sep : string) (a b : list string) :
  a ≠ [] → b ≠ [] →
  Str.join sep (a ++ b) = Str.join sep a +:+ sep +:+ Str.join sep b.
Proof.
  intros Ha Hb. induction a as [|x a IH]; [done|].
  destruct a as [|y a].
  - cbn [app]. by rewrite join_cons.
  - rewrite <- app_comm_cons. rewrite !join_cons by done.
    rewrite IH by done. by rewrite !append_assoc.
Qed.

(** A joined list in a list joins like its items. *)
Lemma join_join (sep : string) (a m b : list string) :
  m ≠ [] → Str.join sep (a ++ Str.join sep m :: b) = Str.join sep (a ++ m ++ b).
Proof.
  intros Hm.
  assert (Hhead : ∀ b, Str.join sep (Str.join sep m :: b) = Str.join sep (m ++ b)).
  { intros [|y b'].
    - by rewrite app_nil_r.
    - rewrite join_cons by done. by rewrite join_app by done. }
  destruct a as [|x a]; [by apply Hhead|].
  rewrite join_app by done. rewrite Hhead.
  rewrite (join_app sep (x :: a) (m ++ b)); [done..|].
  by destruct m.
Qed.

Lemma join_with_tail (sep : string) (segments : list string) (tail : string) :
  segments ≠ [] → Str.join sep segments +:+ tail = Str.join sep (with_tail segments tail).
Proof.
  intros Hne. unfold with_tail.
  induction segments as [|x segments IH]; [done|].
  destruct segments as [|y segments]; [done|].
  rewrite join_cons by done.
  change (removelast (x :: y :: segments)) with (x :: removelast (y :: segments)).
  change (List.last (x :: y :: segments) "") with (List.last (y :: segments) "").
  rewrite <- app_comm_cons.
  rewrite (join_cons sep x (removelast (y :: segments) ++ _));
    [|by intros [_ ?]%app_eq_nil].
  rewrite <- IH by done. by rewrite !append_assoc.
Qed.

(** *** [split] after [join] *)

Lemma split_go_plain (sep : ascii) (cur s : string) :
  contains sep s = false → Str.split_go sep cur s = [String.rev_app cur s].
Proof.
  revert cur; induction s as [|c s IH]; intros cur; [done|].
  cbn [contains Str.split_go]. intros [Hc Hs]%orb_false_iff. rewrite Hc.
  by rewrite IH.
Qed.

Lemma split_go_sep (sep : ascii) (cur a b : string) :
  contains sep a = false →
  Str.split_go sep cur (a +:+ String sep b) =
    String.rev_app cur a :: Str.split_go sep "" b.
Proof.
  revert cur; induction a as [|c a IH]; intros cur.
  - intros _. rewrite append_nil_l. cbn [Str.split_go]. by rewrite Ascii.eqb_refl.
  - cbn [contains]. intros [Hc Ha]%orb_false_iff.
    rewrite append_cons. cbn [Str.split_go]. rewrite Hc. by rewrite IH.
Qed.

Lemma split_sep (sep : ascii) (s : string) :
  Str.split sep (String sep s) = "" :: Str.split sep s.
Proof. unfold Str.split. cbn [Str.split_go]. by rewrite Ascii.eqb_refl. Qed.

Lemma split_join (sep : ascii) (items : list string) :
  items ≠ [] → Forall (λ s, contains sep s = false) items →
  Str.split sep (Str.join (String sep "") items) = items.
Proof.
  intros Hne Hplain. unfold Str.split.
  induction Hplain as [|x items Hx Hplain IH]; [done|].
  destruct items as [|y items].
  - by rewrite split_go_plain.
  - rewrite join_cons by done. rewrite append_cons, append_nil_l.
    rewrite split_go_sep by done. by rewrite IH.
Qed.

End StringFacts.

(** *** [Path(text)] on a text made of a root and plain segments *)

Section PathFacts.

Lemma plain_segment_spec (s : string) :
  plain_segment s = true ↔ s ≠ "" ∧ s ≠ "." ∧ contains "/" s = false.
Proof.
  unfold plain_segment. rewrite !andb_true_iff, !negb_true_iff, !String.eqb_neq. tauto.
Qed.

Lemma plain_component_spec (s : string) :
  plain_component s = true ↔ s ≠ "" ∧ contains "." s = false ∧ contains "/" s = false.
Proof.
  unfold plain_component. rewrite !andb_true_iff, !negb_true_iff, !String.eqb_neq. tauto.
Qed.

Lemma plain_component_segment (s : string) :
  plain_component s = true → plain_segment s = true.
Proof.
  rewrite plain_component_spec, plain_segment_spec. intros (Hne & Hdot & Hslash).
  split_and!; [done| |done]. intros ->. done.
Qed.

Lemma filter_plain (segments : list string) :
  forallb plain_segment segments = true → List.filter Path.is_segment segments = segments.
Proof.
  induction segments as [|x segments IH]; [done|].
  cbn [forallb List.filter]. intros [Hx Hrest]%andb_true_iff.
  apply plain_segment_spec in Hx as (Hne & Hdot & _).
  unfold Path.is_segment at 1.
  rewrite (proj2 (String.eqb_neq x "")), (proj2 (String.eqb_neq x ".")) by done.
  cbn [orb negb]. by rewrite IH.
Qed.

Lemma forallb_no_slash (segments : list string) :
  forallb plain_segment segments = true →
  Forall (λ s, contains "/" s = false) segments.
Proof.
  rewrite forallb_forall, Forall_forall. intros Hall s Hs.
  by apply plain_segment_spec, Hall, list_elem_of_In.
Qed.

Lemma parse_root_other (c : ascii) (t : string) :
  c ≠ "/"%char → Path.parse_root (String c t) = "".
Proof. intros Hc. destruct c as [[] [] [] [] [] [] [] []]; done. Qed.

Lemma parse_root_one (c : ascii) (t : string) :
  c ≠ "/"%char → Path.parse_root (String "/" (String c t)) = "/".
Proof. intros Hc. destruct c as [[] [] [] [] [] [] [] []]; done. Qed.

Lemma parse_root_two (c : ascii) (t : string) :
  c ≠ "/"%char → Path.parse_root (String "/" (String "/" (String c t))) = "//".
Proof. intros Hc. destruct c as [[] [] [] [] [] [] [] []]; done. Qed.

(** A joined list of plain segments starts with a character other than the
    separator. *)
Lemma join_plain_head (segments : list string) :
  segments ≠ [] → forallb plain_segment segments = true →
  ∃ c t, Str.join "/" segments = String c t ∧ c ≠ "/"%char.
Proof.
  intros Hne Hall. destruct segments as [|x rest]; [done|].
  cbn [forallb] in Hall. apply andb_true_iff in Hall as [Hx _].
  apply plain_segment_spec in Hx as (Hx & _ & Hslash).
  destruct x as [|c x]; [done|]. cbn [contains] in Hslash.
  apply orb_false_iff in Hslash as [Hc%Ascii.eqb_neq _].
  destruct rest as [|y rest]; [by exists c, x|].
  rewrite join_cons by done. rewrite append_cons. eauto.
Qed.

(** [Path(text)] reads back the root and the segments the text was made
    of. *)
Lemma of_string_join (root : string) (segments : list string) :
  root ∈ [""; "/"; "//"] → segments ≠ [] → forallb plain_segment segments = true →
  Path.of_string (root +:+ Str.join "/" segments) = Path.mk root segments.
Proof.
  intros Hroot Hne Hall.
  destruct (join_plain_head segments Hne Hall) as (c & t & Hjoin & Hc).
  pose proof (split_join "/" segments Hne (forallb_no_slash _ Hall)) as Hsplit.
  change (String "/" "") with "/" in Hsplit.
  unfold Path.of_string.
  rewrite !elem_of_cons, elem_of_nil in Hroot. destruct Hroot as [->|[->|[->|[]]]].
  - rewrite append_nil_l, Hsplit, filter_plain by done.
    by rewrite Hjoin, parse_root_other.
  - rewrite append_cons, append_nil_l.
    assert (Str.split "/" (String "/" (Str.join "/" segments)) = "" :: segments) as ->.
    { by rewrite split_sep, Hsplit. }
    cbn [List.filter Path.is_segment String.eqb orb negb]. rewrite filter_plain by done.
    by rewrite Hjoin, parse_root_one.
  - rewrite !append_cons, append_nil_l.
    assert (Str.split "/" (String "/" (String "/" (Str.join "/" segments))) =
            "" :: "" :: segments) as ->.
    { by rewrite !split_sep, Hsplit. }
    cbn [List.filter Path.is_segment String.eqb orb negb]. rewrite filter_plain by done.
    by rewrite Hjoin, parse_root_two.
Qed.

Lemma plain_path_spec (p : Path) :
  plain_path p = true ↔
  Path.root p ∈ [""; "/"; "//"] ∧ Path.parts p ≠ [] ∧
  forallb plain_segment (Path.parts p) = true.
Proof.
  unfold plain_path.
  rewrite !andb_true_iff, negb_true_iff, bool_decide_eq_true, bool_decide_eq_false. tauto.
Qed.

Lemma as_posix_plain (p : Path) :
  Path.parts p ≠ [] → Path.as_posix p = Path.root p +:+ Str.join "/" (Path.parts p).
Proof. unfold Path.as_posix. by destruct (Path.root p), (Path.parts p). Qed.

End PathFacts.

(** ** Further properties of [ImportFileResolver] *)

Section ImportNameFacts.

Import ImportFileResolver.

Lemma leading_dots_dots (count : nat) (rest : string) :
  leading_dots rest = 0 →
  leading_dots (dots count +:+ rest) = count ∧ Str.drop count (dots count +:+ rest) = rest.
Proof.
  intros Hrest. induction count as [|count [IH1 IH2]].
  - split; [done|]. cbn [dots]. rewrite append_nil_l. by destruct rest.
  - cbn [dots]. rewrite append_cons. cbn [leading_dots Str.drop]. by rewrite IH1, IH2.
Qed.

Lemma forallb_plain_component (mods : list string) :
  forallb plain_component mods = true →
  Forall (λ m, m ≠ "" ∧ contains "." m = false ∧ contains "/" m = false) mods.
Proof.
  rewrite forallb_forall, Forall_forall. intros Hall m Hm.
  by apply plain_component_spec, Hall, list_elem_of_In.
Qed.

Lemma replace_join (mods : list string) :
  forallb plain_component mods = true →
  Str.replace "." "/" (Str.join "." mods) = Str.join "/" mods.
Proof.
  intros Hall%forallb_plain_component.
  induction Hall as [|m mods (_ & Hdot & _) Hall IH]; [done|].
  destruct mods as [|m' mods]; [by apply replace_absent|].
  rewrite !join_cons by done. rewrite !replace_append, IH.
  by rewrite replace_absent.
Qed.

Lemma join_components_head (mods : list string) :
  forallb plain_component mods = true →
  leading_dots (Str.join "." mods) = 0 ∧
  (Str.join "." mods = "" ↔ mods = []).
Proof.
  intros Hall%forallb_plain_component. destruct Hall as [|m mods (Hne & Hdot & _) Hall].
  - by cbn.
  - destruct m as [|c m]; [done|]. cbn [contains] in Hdot.
    apply orb_false_iff in Hdot as [Hc%Ascii.eqb_neq _].
    assert (∃ t, Str.join "." (String c m :: mods) = String c t) as [t ->].
    { destruct mods; [by eexists|]. rewrite join_cons by done. rewrite append_cons. eauto. }
    split; [|done]. destruct c as [[] [] [] [] [] [] [] []]; done.
Qed.

(** The translation of a name made of dots and plain components. *)
Lemma translated_parts_dotted (cwd_posix : string) (count : nat) (mods : list string) :
  forallb plain_component mods = true →
  translated_parts cwd_posix (dots count +:+ Str.join "." mods) =
    match count with
    | 0 => []
    | S further => cwd_posix :: replicate further ".."
    end ++
    match mods with
    | [] => []
    | _ => [Str.join "/" mods]
    end.
Proof.
  intros Hall. destruct (join_components_head mods Hall) as [Hhead Hempty].
  destruct (leading_dots_dots count _ Hhead) as [Hdots Hdrop].
  unfold translated_parts. rewrite Hdots, Hdrop. f_equal.
  destruct mods as [|m mods]; [done|].
  assert (Hfilled : Str.join "." (m :: mods) ≠ "") by (by intros ?%Hempty).
  rewrite <- (replace_join (m :: mods)) by done.
  by destruct (Str.join "." (m :: mods)).
Qed.

Lemma with_tail_plain (segments : list string) :
  segments ≠ [] → forallb plain_segment segments = true →
  forallb plain_segment (with_tail segments ".py") = true.
Proof.
  intros Hne Hall. unfold with_tail.
  rewrite (app_removelast_last "" Hne) in Hall.
  rewrite forallb_app in Hall |- *. apply andb_true_iff in Hall as [Hinit Hlast].
  rewrite Hinit. cbn [forallb andb] in *. rewrite andb_true_r in *.
  apply plain_segment_spec in Hlast as (Hlast & _ & Hslash).
  apply plain_segment_spec. split_and!.
  - by destruct (List.last segments "").
  - destruct (List.last segments "") as [|c [|d t]]; done.
  - by rewrite contains_append, Hslash.
Qed.

(** The two probes of a name whose translation is a list of plain
    segments. *)
Lemma probes_plain (path_lookup : PathLookup) (name root : string) (segments : list string) :
  root ∈ [""; "/"; "//"] → segments ≠ [] → forallb plain_segment segments = true →
  Str.join "/" (translated_parts (Path.as_posix (cwd path_lookup)) name) =
    root +:+ Str.join "/" segments →
  probes path_lookup name =
    [Path.mk root (with_tail segments ".py"); Path.mk root (segments ++ ["__init__.py"])].
Proof.
  intros Hroot Hne Hall Htext. unfold probes, candidates.
  rewrite import_parts_translated, Htext. cbn [fmap list_fmap]. f_equal; [|f_equal].
  - rewrite append_assoc, join_with_tail by done.
    apply of_string_join; [done| |by apply with_tail_plain].
    unfold with_tail. by intros [_ ?]%app_eq_nil.
  - rewrite append_assoc.
    change "/__init__.py" with ("/" +:+ Str.join "/" ["__init__.py"]).
    rewrite <- join_app by done.
    apply of_string_join; [done|by intros [_ ?]%app_eq_nil|].
    by rewrite forallb_app, Hall.
Qed.

End ImportNameFacts.

Lemma join_rooted (sep root x : string) (rest : list string) :
  Str.join sep ((root +:+ x) :: rest) = root +:+ Str.join sep (x :: rest).
Proof.
  destruct rest as [|y rest]; [done|]. rewrite !join_cons by done. by rewrite append_assoc.
Qed.

Lemma forallb_components_segments (mods : list string) :
  forallb plain_component mods = true → forallb plain_segment mods = true.
Proof.
  rewrite !forallb_forall. intros Hall m Hm. by apply plain_component_segment, Hall.
Qed.

Lemma forallb_replicate_up (count : nat) : forallb plain_segment (replicate count "..") = true.
Proof. induction count as [|count IH]; [done|]. cbn [replicate forallb]. by rewrite IH. Qed.

(** X1. Whatever the allow-list and the lookup answer, [resolve_import]
    never returns a dependency together with problems. A dependency comes
    only for a name that is not empty and that the allow-list does not know:
    it uses the resolver's file loader, does not inherit the context, and its
    path is the lookup's answer to one of the two probes. Without a
    dependency the problems are the allow-list's, or the single [ucx-bug] of
    the empty name, or the single [import-not-found] of a name neither of
    whose probes resolves. *)
Theorem resolve_import_outcome (self : ImportFileResolver.t) (path_lookup : PathLookup)
    (name : string) :
  let result := value (ImportFileResolver.resolve_import self path_lookup name) in
  let compatibility := module_compatibility (ImportFileResolver._allow_list self) name in
  match MaybeDependency.dependency result with
  | Some dependency =>
      MaybeDependency.problems result = [] ∧
      Compatibility.known compatibility = false ∧
      name ≠ "" ∧
      Dependency.loader dependency = ImportFileResolver._file_loader self ∧
      Dependency.inherits_context dependency = false ∧
      ∃ probe, probe ∈ ImportFileResolver.probes path_lookup name ∧
               resolve path_lookup probe = Some (Dependency.path dependency)
  | None =>
      (Compatibility.known compatibility = true ∧
       MaybeDependency.problems result = Compatibility.problems compatibility) ∨
      (Compatibility.known compatibility = false ∧ name = "" ∧
       MaybeDependency.problems result =
         [DependencyProblem.mk "ucx-bug" "Import name is empty"]) ∨
      (Compatibility.known compatibility = false ∧ name ≠ "" ∧
       Forall (λ probe, resolve path_lookup probe = None)
              (ImportFileResolver.probes path_lookup name) ∧
       MaybeDependency.problems result =
         [DependencyProblem.mk "import-not-found" ("Could not locate import: " +:+ name)])
  end.
Proof.
  intros result compatibility. subst result.
  rewrite resolve_import_unfold. cbn zeta. fold compatibility.
  destruct (Compatibility.known compatibility) eqn:Hknown; [cbn; by left|].
  unfold value at 1 2 3 4; cbn [fst].
  destruct (decide (name = "")) as [->|Hname]; [cbn; right; by left|].
  unfold ImportFileResolver._resolve_import.
  rewrite string_eqb_empty, bool_decide_eq_false_2 by done.
  unfold ImportFileResolver.probes, ImportFileResolver.candidates.
  rewrite probe_two.
  set (first := Path.of_string _). set (second := Path.of_string _).
  cbn [fmap list_fmap].
  destruct (resolve path_lookup first) as [found|] eqn:Hfirst; cbn.
  - split_and!; try done. exists first. split; [by left|done].
  - destruct (resolve path_lookup second) as [found|] eqn:Hsecond; cbn.
    + split_and!; try done. exists second. split; [by right; left|done].
    + right; right. split_and!; try done. by repeat constructor.
Qed.

(** X2. A name that does not start with a dot is resolved without the
    lookup directory: two lookup contexts that resolve every path alike give
    the same answer and the same calls, whatever their directories. *)
Theorem absolute_import_ignores_cwd (self : ImportFileResolver.t)
    (lookup1 lookup2 : PathLookup) (rune : ascii) (rest : string) :
  rune ≠ "."%char →
  (∀ path, resolve lookup1 path = resolve lookup2 path) →
  ImportFileResolver.resolve_import self lookup1 (String rune rest) =
  ImportFileResolver.resolve_import self lookup2 (String rune rest).
Proof.
  intros Hrune Hsame. rewrite !resolve_import_unfold. cbn zeta.
  destruct (Compatibility.known _); [done|].
  assert (ImportFileResolver._resolve_import self lookup1 (String rune rest) =
          ImportFileResolver._resolve_import self lookup2 (String rune rest)) as ->; [|done].
  unfold ImportFileResolver._resolve_import. cbn [String.eqb].
  cbn [ImportFileResolver.import_parts Nat.eqb andb].
  rewrite (proj2 (Ascii.eqb_neq rune ".")) by done. cbn [negb].
  unfold ImportFileResolver.candidates. rewrite !probe_two. by rewrite !Hsame.
Qed.

Lemma absolute_import_ignores_cwd_witness :
  ImportFileResolver.resolve_import sample_resolver full_lookup "pkg.mod" =
  ImportFileResolver.resolve_import sample_resolver
    {| cwd := Path.of_string "/elsewhere"; resolve := λ p, Some p |} "pkg.mod".
Proof.
  apply (absolute_import_ignores_cwd sample_resolver full_lookup
           {| cwd := Path.of_string "/elsewhere"; resolve := λ p, Some p |} "p" "kg.mod").
  - discriminate.
  - reflexivity.
Defined.

(** X3. A relative import, one or more dots followed by plain components
    (or by nothing), from a lookup directory that is a plain path: the probes
    keep the directory's root and segments, add one [..] segment per dot
    after the first and then the components; the first probe has [.py] glued
    to its last segment, the second has the segment [__init__.py] added. With
    no component the last segment is the directory's own name, or [..], so
    that [.] from [/root/pkg] first probes [/root/pkg.py] and [..] first
    probes the file [...py] of [/root/pkg]. *)
Theorem relative_import_probes (path_lookup : PathLookup) (further : nat)
    (mods : list string) :
  plain_path (cwd path_lookup) = true →
  forallb plain_component mods = true →
  let segments := Path.parts (cwd path_lookup) ++ replicate further ".." ++ mods in
  ImportFileResolver.probes path_lookup (dots (S further) +:+ Str.join "." mods) =
    [Path.mk (Path.root (cwd path_lookup)) (with_tail segments ".py");
     Path.mk (Path.root (cwd path_lookup)) (segments ++ ["__init__.py"])].
Proof.
  intros (Hroot & Hparts & Hplain)%plain_path_spec Hmods segments.
  apply probes_plain; [done| | |].
  - unfold segments. by intros [? _]%app_eq_nil.
  - unfold segments. rewrite !forallb_app, Hplain, forallb_replicate_up.
    by rewrite forallb_components_segments.
  - rewrite translated_parts_dotted by done.
    rewrite as_posix_plain by done. rewrite <- app_comm_cons, join_rooted. f_equal.
    change (Str.join "/" (Str.join "/" (Path.parts (cwd path_lookup)) :: ?rest))
      with (Str.join "/" ([] ++ Str.join "/" (Path.parts (cwd path_lookup)) :: rest)).
    rewrite (join_join "/" [] (Path.parts (cwd path_lookup))) by done.
    unfold segments. cbn [app]. destruct mods as [|m mods]; [by rewrite !app_nil_r|].
    rewrite !app_assoc.
    rewrite (join_join "/" (Path.parts (cwd path_lookup) ++ replicate further "..")
               (m :: mods) []) by done.
    by rewrite app_nil_r.
Qed.

Lemma relative_import_probes_witness :
  ImportFileResolver.probes empty_lookup "..sibling.mod" =
    [Path.mk "/" ["root"; "pkg"; ".."; "sibling"; "mod.py"];
     Path.mk "/" ["root"; "pkg"; ".."; "sibling"; "mod"; "__init__.py"]] ∧
  ImportFileResolver.probes empty_lookup ".." =
    [Path.mk "/" ["root"; "pkg"; "...py"];
     Path.mk "/" ["root"; "pkg"; ".."; "__init__.py"]].
Proof.
  split.
  - apply (relative_import_probes empty_lookup 1 ["sibling"; "mod"]); reflexivity.
  - apply (relative_import_probes empty_lookup 1 []); reflexivity.
Defined.

(** X4. An import of plain components without a leading dot probes two
    relative paths, the components as segments: the first with [.py] glued to
    the last component, the second with the segment [__init__.py] added. *)
Theorem absolute_import_probes (path_lookup : PathLookup) (mods : list string) :
  mods ≠ [] →
  forallb plain_component mods = true →
  ImportFileResolver.probes path_lookup (Str.join "." mods) =
    [Path.mk "" (with_tail mods ".py"); Path.mk "" (mods ++ ["__init__.py"])].
Proof.
  intros Hne Hmods.
  apply probes_plain; [by left|done|by apply forallb_components_segments|].
  pose proof (translated_parts_dotted (Path.as_posix (cwd path_lookup)) 0 mods Hmods) as Hparts.
  cbn [dots] in Hparts. rewrite append_nil_l in Hparts. rewrite Hparts.
  by destruct mods.
Qed.

Lemma absolute_import_probes_witness :
  ImportFileResolver.probes empty_lookup "pkg.sub.mod" =
    [Path.mk "" ["pkg"; "sub"; "mod.py"]; Path.mk "" ["pkg"; "sub"; "mod"; "__init__.py"]].
Proof.
  apply (absolute_import_probes empty_lookup ["pkg"; "sub"; "mod"]); [discriminate|reflexivity].
Defined.

(** ** A property of [FolderLoader] *)

(** X5. [load_dependency] gives no folder exactly when the lookup does not
    resolve the dependency's path. The folder it gives sits at the resolved
    path, not at the dependency's own: built on a graph, when it is not
    pruned and can be listed, it registers every entry under the resolved
    path, notebooks and files with the two loaders the [FolderLoader] was
    made with and anything else with the [FolderLoader] class itself. *)
Theorem load_dependency_children `{DependencyGraph G} (self : FolderLoader.t)
    (path_lookup : PathLookup) (dependency : Dependency) (fs : FileSystem) (parent : G) :
  match FolderLoader.load_dependency self path_lookup dependency with
  | None => resolve path_lookup (Dependency.path dependency) = None
  | Some folder =>
      ∃ absolute_path,
        resolve path_lookup (Dependency.path dependency) = Some absolute_path ∧
        ∀ names,
          Path.name absolute_path ∉ Folder.denylist →
          listdir fs absolute_path = Some names →
          Folder.build_dependency_graph fs folder parent =
            Some (register_all parent
                    ((λ name,
                        let child_path := Path.child absolute_path name in
                        Dependency.mk
                          (if is_a_notebook fs child_path then FolderLoader._notebook_loader self
                           else if is_file fs child_path then FolderLoader._file_loader self
                           else FolderLoader)
                          child_path (is_a_notebook fs child_path)) <$> names))
  end.
Proof.
  unfold FolderLoader.load_dependency.
  destruct (resolve path_lookup (Dependency.path dependency)) as [absolute_path|]; [|done].
  exists absolute_path. split; [done|]. intros names Hname Hlist.
  unfold Folder.build_dependency_graph, Folder._build_dependency_graph, iterdir.
  cbn [Folder._path]. rewrite decide_False by done. rewrite Hlist.
  cbn [fmap option_fmap option_map]. rewrite register_children_all.
  by rewrite <- list_fmap_compose.
Qed.

Lemma load_dependency_children_witness :
  (λ folder, Folder.build_dependency_graph sample_fs folder sample_journal) <$>
    FolderLoader.load_dependency (FolderLoader.mk NotebookLoader FileLoader) repo_lookup
      (Dependency.mk FolderLoader (Path.of_string "repo") false) =
  Some (Some ([DependencyProblem.mk "import-not-found" "Could not locate import: missing"],
              {| report := report sample_journal;
                 registered :=
                   [Dependency.mk NotebookLoader (Path.of_string "/repo/nb.py") true;
                    Dependency.mk FileLoader (Path.of_string "/repo/mod.py") false;
                    Dependency.mk FolderLoader (Path.of_string "/repo/pkg") false;
                    Dependency.mk FolderLoader (Path.of_string "/repo/.git") false] |})).
Proof.
  pose proof (load_dependency_children (FolderLoader.mk NotebookLoader FileLoader) repo_lookup
                (Dependency.mk FolderLoader (Path.of_string "repo") false)
                sample_fs sample_journal) as Hload.
  destruct (FolderLoader.load_dependency _ _ _) as [folder|]; [|discriminate Hload].
  destruct Hload as [absolute_path [[= <-] Hbuild]].
  cbn [fmap option_fmap option_map]. rewrite (Hbuild ["nb.py"; "mod.py"; "pkg"; ".git"]).
  - vm_compute. reflexivity.
  - apply (bool_decide_eq_false_1 _). vm_compute. reflexivity.
  - reflexivity.
Defined.

(** ** Further properties of [LocalFileMigrator] *)

Section MigratorFacts.

Variable is_dir : Path → bool.
Variable fs : FileSystem.
Variable context_factory : unit → LinterContext.

Let self := LocalFileMigrator.__init__ context_factory.
Let context := context_factory ().


(** [journalled] is a preorder, and every call of [_apply_file_fix] is
    journalled. *)
Lemma journalled_refl (disk : Disk) : journalled disk disk.
Proof.
  exists []. split_and!; [by rewrite app_nil_r|constructor| |done..].
  intros i p Hi. by rewrite lookup_nil in Hi.
Qed.

Lemma written_journal (before after : Disk) (entries : list (Path * Mode)) :
  opened after = opened before ++ entries →
  written before after =
    omap (λ entry : Path * Mode,
            match entry.2 with ModeW => Some entry.1 | ModeR => None end) entries.
Proof. intros Hjournal. unfold written. by rewrite Hjournal, drop_app_length. Qed.


Lemma read_before_write_app (entries1 entries2 : list (Path * Mode)) :
  read_before_write entries1 → read_before_write entries2 →
  read_before_write (entries1 ++ entries2).
Proof.
  intros Hfirst Hsecond i p Hi. apply lookup_app_Some in Hi as [Hi|[Hlength Hi]].
  - destruct (Hfirst i p Hi) as (j & -> & Hj). exists j. split; [done|].
    by apply lookup_app_l_Some.
  - destruct (Hsecond _ p Hi) as (j & Hij & Hj). exists (length entries1 + j).
    split; [lia|]. rewrite lookup_app_r by lia.
    by replace (length entries1 + j - length entries1) with j by lia.
Qed.

Lemma journalled_trans (disk1 disk2 disk3 : Disk) :
  journalled disk1 disk2 → journalled disk2 disk3 → journalled disk1 disk3.
Proof.
  intros (entries1 & Hjournal1 & Hsupported1 & Horder1 & Hfiles1 & Hlocked1)
         (entries2 & Hjournal2 & Hsupported2 & Horder2 & Hfiles2 & Hlocked2).
  assert (Hjournal : opened disk3 = opened disk1 ++ entries1 ++ entries2).
  { by rewrite Hjournal2, Hjournal1, (assoc_L (++)). }
  exists (entries1 ++ entries2). split_and!; [done| | | |congruence].
  - by apply Forall_app.
  - by apply read_before_write_app.
  - rewrite (written_journal _ _ _ Hjournal), omap_app.
    rewrite (written_journal _ _ _ Hjournal1) in Hfiles1.
    rewrite (written_journal _ _ _ Hjournal2) in Hfiles2.
    intros [Hnone1 Hnone2]%app_eq_nil. by rewrite Hfiles2, Hfiles1.
Qed.

Lemma _apply_file_fix_journalled (path : Path) (disk : Disk) :
  journalled disk (LocalFileMigrator._apply_file_fix self path disk).2.
Proof.
  unfold self. rewrite _apply_file_fix_cases. cbn zeta. fold self context.
  destruct (LocalFileMigrator._extensions self !! Path.suffix path) as [language|] eqn:Hext;
    [|apply journalled_refl].
  assert (Hsuffix : Path.suffix path ∈ [".py"; ".sql"]).
  { unfold self in Hext. rewrite extensions_lookup in Hext.
    rewrite !elem_of_cons. repeat case_decide; auto. done. }
  assert (Hread : journalled disk (was_read path disk)).
  { exists [(path, ModeR)]. split_and!; [done|by apply Forall_singleton| |done..].
    intros [|i] p Hi; simplify_eq/=. }
  destruct (files disk !! path) as [[code|]|]; [|done|apply journalled_refl].
  destruct (LocalFileMigrator.apply_fixers _ _ _ _ _) as [code' []]; cbn [fst snd]; [|done].
  case_decide; [done|]. exists [(path, ModeR); (path, ModeW)].
  split_and!; [done| | | |done].
  - apply Forall_cons_2; [done|]. apply Forall_cons_2; [done|constructor].
  - intros [|[|i]] p Hi; simplify_eq/=. by exists 0.
  - cbn [snd]. by rewrite written_app.
Qed.



End MigratorFacts.

Lemma apply_unfold (is_dir : Path → bool) (fs : FileSystem) (depth : nat)
    (self : LocalFileMigrator.t) (path : Path) :
  LocalFileMigrator.apply is_dir fs (S depth) self path =
    if is_dir path then
      match iterdir fs path with
      | None => λ disk, (Raised "OSError", disk)
      | Some children =>
          io_bind (LocalFileMigrator.for_each children
                     (LocalFileMigrator.apply is_dir fs depth self))
                  (λ _, io_ret true)
      end
    else LocalFileMigrator._apply_file_fix self path.
Proof. reflexivity. Qed.

Section ApplyFacts.

Variable is_dir : Path → bool.
Variable fs : FileSystem.
Variable context_factory : unit → LinterContext.

Let self := LocalFileMigrator.__init__ context_factory.

Lemma for_each_journalled (body : Path → IO bool) (children : list Path) (disk : Disk) :
  (∀ child disk, journalled disk (body child disk).2) →
  journalled disk (LocalFileMigrator.for_each children body disk).2.
Proof.
  intros Hbody. revert disk; induction children as [|child children IH]; intros disk.
  - apply journalled_refl.
  - cbn [LocalFileMigrator.for_each]. unfold io_bind.
    pose proof (Hbody child disk) as Hchild.
    destruct (body child disk) as [[answer|exception] after]; [|done].
    by eapply journalled_trans, IH.
Qed.

(** The loop over a list in two parts. *)
Lemma for_each_app (body : Path → IO bool) (before after : list Path) (disk : Disk) :
  LocalFileMigrator.for_each (before ++ after) body disk =
    match LocalFileMigrator.for_each before body disk with
    | (Returned _, disk) => LocalFileMigrator.for_each after body disk
    | (Raised exception, disk) => (Raised exception, disk)
    end.
Proof.
  revert disk; induction before as [|child before IH]; intros disk; [done|].
  cbn [app LocalFileMigrator.for_each]. unfold io_bind.
  destruct (body child disk) as [[answer|exception] disk']; [|done]. apply IH.
Qed.


End ApplyFacts.



(** X8. Whatever the folders, the depth allowed and the linter context,
    and whether it returns or raises, [apply] keeps the journal it found and
    adds to it: it opens only files whose suffix is [.py] or [.sql], it opens
    a file for writing only right after it has opened the same path for
    reading, and when it opened no file for writing the files are as they
    were. *)
Theorem apply_opens_supported (is_dir : Path → bool) (fs : FileSystem)
    (context_factory : unit → LinterContext) (depth : nat) (path : Path) (disk : Disk) :
  let after :=
    (LocalFileMigrator.apply is_dir fs depth (LocalFileMigrator.__init__ context_factory)
       path disk).2 in
  ∃ entries,
    opened after = opened disk ++ entries ∧
    Forall (λ entry : Path * Mode, Path.suffix entry.1 ∈ [".py"; ".sql"]) entries ∧
    (∀ i p, entries !! i = Some (p, ModeW) →
            ∃ j, i = S j ∧ entries !! j = Some (p, ModeR)) ∧
    (written disk after = [] → files after = files disk).
Proof.
  intros after. subst after.
  set (self := LocalFileMigrator.__init__ context_factory).
  assert (Hjournalled :
    journalled disk (LocalFileMigrator.apply is_dir fs depth self path disk).2).
  { revert path disk; induction depth as [|depth IH]; intros path disk;
      [apply journalled_refl|].
    rewrite apply_unfold. destruct (is_dir path); [|apply _apply_file_fix_journalled].
    destruct (iterdir fs path) as [children|]; [|apply journalled_refl].
    unfold io_bind.
    pose proof (for_each_journalled (LocalFileMigrator.apply is_dir fs depth self)
                  children disk IH) as Hloop.
    by destruct (LocalFileMigrator.for_each _ _ _) as [[[]|exception] after]. }
  destruct Hjournalled as (entries & ? & ? & ? & ? & _). by exists entries.
Qed.

(** X9. [apply] on a folder stops at the first entry whose call raises: the
    exception is the folder's, the disk is as that call left it, and the
    entries listed after it are not visited. *)
Theorem apply_stops_at_exception (is_dir : Path → bool) (fs : FileSystem)
    (self : LocalFileMigrator.t) (depth : nat) (path : Path) (disk : Disk)
    (before : list Path) (child : Path) (after : list Path)
    (exception : string) (disk1 disk2 : Disk) :
  is_dir path = true →
  iterdir fs path = Some (before ++ child :: after) →
  LocalFileMigrator.for_each before (LocalFileMigrator.apply is_dir fs depth self) disk =
    (Returned (), disk1) →
  LocalFileMigrator.apply is_dir fs depth self child disk1 = (Raised exception, disk2) →
  LocalFileMigrator.apply is_dir fs (S depth) self path disk = (Raised exception, disk2).
Proof.
  intros Hdir Hlist Hbefore Hchild.
  cbn [LocalFileMigrator.apply]. rewrite Hdir, Hlist. unfold io_bind.
  rewrite for_each_app, Hbefore.
  cbn [LocalFileMigrator.for_each]. unfold io_bind. by rewrite Hchild.
Qed.

Lemma apply_stops_at_exception_witness :
  LocalFileMigrator.apply only_repo dangling_fs 2
    (LocalFileMigrator.__init__ (λ _, sample_context [advice_with_fixer]))
    (Path.of_string "/repo") sample_disk =
  (Raised "FileNotFoundError", sample_disk).
Proof.
  apply (apply_stops_at_exception only_repo dangling_fs
           (LocalFileMigrator.__init__ (λ _, sample_context [advice_with_fixer]))
           1 (Path.of_string "/repo") sample_disk
           [Path.of_string "/repo/notes.txt"] (Path.of_string "/repo/gone.py")
           [Path.of_string "/repo/mod.py"] "FileNotFoundError" sample_disk sample_disk).
  - reflexivity.
  - reflexivity.
  - vm_compute. reflexivity.
  - vm_compute. reflexivity.
Defined.


